(** * Health-policy assistant: the clause-aware chunker and the embedding
      attacher, embedded from [scripts/chunker.py] and
      [scripts/embed_generator.py].

    Python [str] values are sequences of Unicode code points; dictionaries
    with a fixed set of keys are records; exceptions are the left summand
    of a result type.  The tokenizer (tiktoken) and the embedding provider
    (Gemini) are collaborators outside the repository and are taken as
    section variables. *)

From Stdlib Require Import List ZArith NArith Lia String Ascii Bool Arith.
From Stdlib Require DecimalNat.
Import ListNotations.

Set Implicit Arguments.

(** Python's [len] on lists and strings. *)
Abbreviation len := (@Datatypes.length _).

(* ===================================================================== *)
(** ** Python strings *)
(* ===================================================================== *)

Module PyStr.

(** A character is its code point. *)
Definition char := N.
Definition str := list char.

(** An ASCII literal of the source as a [str]. *)
Definition lit (s : string) : str := map N_of_ascii (list_ascii_of_string s).

Definition NL : char := 10%N.

(** [str.isspace] on one character, which is also what [\s] of [re]
    matches on [str] patterns and what [str.strip()] removes:
    U+0009..000D, U+001C..0020, U+0085, U+00A0, U+1680, U+2000..200A,
    U+2028, U+2029, U+202F, U+205F, U+3000. *)
Definition is_space (c : char) : bool :=
  ((9 <=? c) && (c <=? 13) || (28 <=? c) && (c <=? 32)
   || (c =? 133) || (c =? 160) || (c =? 5760)
   || (8192 <=? c) && (c <=? 8202)
   || (c =? 8232) || (c =? 8233) || (c =? 8239) || (c =? 8287)
   || (c =? 12288))%N.

(** [s.startswith(p)]. *)
Fixpoint startswith (p s : str) : bool :=
  match p, s with
  | [], _ => true
  | _ :: _, [] => false
  | a :: p', b :: s' => (a =? b)%N && startswith p' s'
  end.

(** [sub in s]. *)
Fixpoint contains (sub s : str) : bool :=
  startswith sub s ||
  match s with
  | [] => false
  | _ :: s' => contains sub s'
  end.

Fixpoint lstrip (s : str) : str :=
  match s with
  | [] => []
  | c :: s' => if is_space c then lstrip s' else s
  end.

(** [s.strip()]. *)
Definition strip (s : str) : str := rev (lstrip (rev (lstrip s))).

(** [sep.join(l)]. *)
Fixpoint join (sep : str) (l : list str) : str :=
  match l with
  | [] => []
  | [x] => x
  | x :: r => x ++ sep ++ join sep r
  end.

(** Truthiness of a string: non-empty. *)
Definition truthy (s : str) : bool :=
  match s with [] => false | _ :: _ => true end.

Fixpoint digits (u : Decimal.uint) : str :=
  match u with
  | Decimal.Nil => []
  | Decimal.D0 u => 48%N :: digits u
  | Decimal.D1 u => 49%N :: digits u
  | Decimal.D2 u => 50%N :: digits u
  | Decimal.D3 u => 51%N :: digits u
  | Decimal.D4 u => 52%N :: digits u
  | Decimal.D5 u => 53%N :: digits u
  | Decimal.D6 u => 54%N :: digits u
  | Decimal.D7 u => 55%N :: digits u
  | Decimal.D8 u => 56%N :: digits u
  | Decimal.D9 u => 57%N :: digits u
  end.

(** [f"{n}"] for a non-negative integer. *)
Definition str_of_nat (n : nat) : str := digits (Nat.to_uint n).

(** [f"{z}"] for an integer. *)
Definition str_of_Z (z : Z) : str :=
  match z with
  | Zneg p => 45%N :: str_of_nat (Pos.to_nat p)
  | _ => str_of_nat (Z.to_nat z)
  end.

(** [f"{n:04d}"] for a non-negative integer: at least four digits,
    padded with zeros on the left. *)
Definition format_04d (n : nat) : str :=
  let d := str_of_nat n in repeat 48%N (4 - len d) ++ d.

(** The value read back from a run of decimal digits. *)
Definition digit_value (c : char) : nat := N.to_nat (c - 48)%N.

Definition int_of_digits (s : str) : nat :=
  fold_left (fun acc c => 10 * acc + digit_value c) s 0.

End PyStr.

(* ===================================================================== *)
(** ** scripts/chunker.py *)
(* ===================================================================== *)

Module Chunker.
Import PyStr.

(** The exceptions the chunking run can raise. *)
Inductive error : Set :=
| FileNotFoundError
| AttributeError
| ZeroDivisionError.

Definition result (A : Type) : Type := (error + A)%type.

(** A section dictionary [{'section': ..., 'text': ...}]. *)
Record SectionData : Set := {
  section_name : str;
  section_text : str
}.

(** A chunk dictionary.  The key ['is_premium_table'] is absent until
    [filter_premium_tables] has run. *)
Record Chunk : Set := {
  chunk_id : str;
  section : str;
  text : str;
  token_count : Z;
  clause_index : str;
  is_premium_table : option bool
}.

(** *** [split_into_sections] *)

(** The longest prefix of characters satisfying [f], and the rest. *)
Fixpoint span (f : char -> bool) (s : str) : str * str :=
  match s with
  | [] => ([], [])
  | c :: s' =>
      if f c then let r := span f s' in (c :: fst r, snd r) else ([], s)
  end.

Definition HASH : char := 35%N.

(** A match of [### SECTION: [^#]+###] anchored at the head of [s].  The
    greedy [[^#]+] can only be followed by [###] when it takes the whole
    run of non-[#] characters. *)
Definition match_marker (s : str) : option str :=
  if startswith (lit "### SECTION: ") s then
    let r := span (fun c => negb (c =? HASH)%N) (skipn 13 s) in
    match fst r with
    | [] => None
    | _ :: _ =>
        if startswith (lit "###") (snd r)
        then Some (firstn (13 + len (fst r) + 3) s)
        else None
    end
  else None.

(** The leftmost non-overlapping matches of the marker pattern: the text
    before the first match, then each match with the text that follows
    it.  [skip] counts the characters of the current match still to be
    consumed. *)
Fixpoint split_markers (skip : nat) (s : str) : str * list (str * str) :=
  match s with
  | [] => ([], [])
  | c :: s' =>
      match skip with
      | S k => split_markers k s'
      | O =>
          match match_marker s with
          | Some m =>
              let r := split_markers (len m - 1) s' in
              ([], (m, fst r) :: snd r)
          | None =>
              let r := split_markers 0 s' in (c :: fst r, snd r)
          end
      end
  end.

(** [re.split(r'(### SECTION: [^#]+###)', text)]: with the capturing
    group the matches are kept, between the pieces of text. *)
Definition re_split_sections (text0 : str) : list str :=
  let r := split_markers 0 text0 in
  fst r :: flat_map (fun mt => [fst mt; snd mt]) (snd r).

(** [(.+?) ###] after at least one character has been taken: the lazy
    group stops at the first place where [ ###] follows; [.] does not
    match a newline. *)
Fixpoint lazy_group (taken s : str) {struct s} : option str :=
  if startswith (lit " ###") s then Some taken
  else
    match s with
    | [] => None
    | c :: s' => if (c =? NL)%N then None else lazy_group (taken ++ [c]) s'
    end.

(** [### SECTION: (.+?) ###] anchored at the head of [s]; group 1. *)
Definition group_at (s : str) : option str :=
  if startswith (lit "### SECTION: ") s then
    match skipn 13 s with
    | [] => None
    | c :: s' => if (c =? NL)%N then None else lazy_group [c] s'
    end
  else None.

(** [re.search(r'### SECTION: (.+?) ###', part)], group 1 of the leftmost
    match; [None] when there is no match. *)
Fixpoint search_section_name (s : str) : option str :=
  match group_at s with
  | Some n => Some n
  | None =>
      match s with
      | [] => None
      | _ :: s' => search_section_name s'
      end
  end.

(** The local variables of the loop of [split_into_sections]. *)
Record split_state : Set := {
  sections : list SectionData;
  current_section : str;
  current_text : str
}.

(** [if current_text.strip(): sections.append({...})]. *)
Definition save_section (st : split_state) : list SectionData :=
  if truthy (strip (current_text st))
  then sections st ++ [ {| section_name := current_section st;
                           section_text := strip (current_text st) |} ]
  else sections st.

(** One iteration of [for part in parts].  [.group(1)] on a failed search
    raises [AttributeError]. *)
Definition split_step (st : split_state) (part : str) : result split_state :=
  if startswith (lit "### SECTION:") part then
    match search_section_name part with
    | None => inl AttributeError
    | Some name =>
        inr {| sections := save_section st;
               current_section := name;
               current_text := [] |}
    end
  else
    inr {| sections := sections st;
           current_section := current_section st;
           current_text := current_text st ++ part |}.

Fixpoint split_loop (st : split_state) (parts : list str) : result split_state :=
  match parts with
  | [] => inr st
  | part :: parts' =>
      match split_step st part with
      | inl e => inl e
      | inr st' => split_loop st' parts'
      end
  end.

Definition split_init : split_state :=
  {| sections := []; current_section := lit "Introduction"; current_text := [] |}.

Definition split_into_sections (text0 : str) : result (list SectionData) :=
  match split_loop split_init (re_split_sections text0) with
  | inl e => inl e
  | inr st => inr (save_section st)
  end.

(** *** Regular-expression splits of [identify_clauses] *)

(** [re.split(r'\n(?=LA)', s)] for a lookahead [la]: every newline that
    the lookahead accepts is removed and separates two pieces. *)
Fixpoint split_before (la : str -> bool) (s : str) : list str :=
  match s with
  | [] => [[]]
  | c :: s' =>
      if (c =? NL)%N && la s' then [] :: split_before la s'
      else
        match split_before la s' with
        | p :: ps => (c :: p) :: ps
        | [] => [[c]]
        end
  end.

(** The lookahead [Age / SI|Indiv\.|2A\n]. *)
Definition table_boundary (s : str) : bool :=
  startswith (lit "Age / SI") s || startswith (lit "Indiv.") s
  || startswith (lit "2A" ++ [NL]) s.

Definition BULLET : char := 8226%N.

Definition is_upper (c : char) : bool := ((65 <=? c) && (c <=? 90))%N.

(** The class [[.!?]]. *)
Definition is_stop (c : char) : bool := ((c =? 46) || (c =? 33) || (c =? 63))%N.

(** Whether the maximal run of whitespace at the head of [s] is followed
    by a character of [[A-Z]]. *)
Definition upper_follows (s : str) : bool :=
  match lstrip s with
  | c :: _ => is_upper c
  | [] => false
  end.

(** [re.split(r'(?<=[.!?])\s+(?=[A-Z])', s)].  A match is a maximal run of
    whitespace that follows a character of [[.!?]] and precedes one of
    [[A-Z]]; the greedy [\s+] cannot stop earlier, the next character
    being whitespace.  [after_stop]: the previous character is in
    [[.!?]]; [skipping]: the scan is inside a matched run. *)
Fixpoint split_sentences_from (after_stop skipping : bool) (s : str) : list str :=
  match s with
  | [] => [[]]
  | c :: s' =>
      if is_space c then
        if skipping then split_sentences_from false true s'
        else if after_stop && upper_follows s
             then [] :: split_sentences_from false true s'
             else
               match split_sentences_from false false s' with
               | p :: ps => (c :: p) :: ps
               | [] => [[c]]
               end
      else
        match split_sentences_from (is_stop c) false s' with
        | p :: ps => (c :: p) :: ps
        | [] => [[c]]
        end
  end.

Definition split_sentences (s : str) : list str :=
  split_sentences_from false false s.

Definition PREMIUM_CHART : str := lit "PREMIUM CHART".
Definition PREMIUM_TABLE : str := lit "PREMIUM TABLE".

(** Truthiness of a list: non-empty. *)
Definition nonempty {A : Type} (l : list A) : bool :=
  match l with [] => false | _ :: _ => true end.

Section Chunker.

(** [self.encoder.encode]: the tokenizer, a function from a string to
    its tokens. *)
Variable encode : str -> list N.
(** [self.target_size] and [self.overlap]. *)
Variable target_size : Z.
Variable overlap : Z.
(** Membership in the Unicode category Nd, which [\d] of [re] consults. *)
Variable is_decimal : char -> bool.

Definition count_tokens (s : str) : Z := Z.of_nat (len (encode s)).

(** [\d*\.] anchored at the head of [s]. *)
Fixpoint digits_dot (s : str) : bool :=
  match s with
  | [] => false
  | c :: s' => (c =? 46)%N || (is_decimal c && digits_dot s')
  end.

(** The lookahead [•|\d+\.]. *)
Definition item_boundary (s : str) : bool :=
  match s with
  | [] => false
  | c :: s' => (c =? BULLET)%N || (is_decimal c && digits_dot s')
  end.

Definition identify_clauses (text0 : str) : list str :=
  if contains PREMIUM_CHART text0 || contains PREMIUM_TABLE text0 then
    map strip
        (filter (fun p => truthy (strip p)) (split_before table_boundary text0))
  else
    flat_map
      (fun part =>
         let part := strip part in
         if negb (truthy part) then []
         else if (count_tokens part >? target_size)%Z
              then split_sentences part
              else [part])
      (split_before item_boundary text0).

(** *** [create_chunks] *)

(** The variables of [create_chunks] that the inner loop reads and
    writes. *)
Record pack_state : Set := {
  chunks : list Chunk;
  counter : nat;               (* chunk_id *)
  current_chunk : list str;
  current_tokens : Z
}.

Definition make_chunk (n : nat) (name : str) (buf : list str) (lo hi : Z) : Chunk :=
  let chunk_text := join [NL] buf in
  {| chunk_id := lit "chunk_" ++ format_04d n;
     section := name;
     text := chunk_text;
     token_count := count_tokens chunk_text;
     clause_index := str_of_Z lo ++ lit "-" ++ str_of_Z hi;
     is_premium_table := None |}.

(** One iteration of [for i, clause in enumerate(clauses)]. *)
Definition pack_step (name : str) (st : pack_state) (i : Z) (clause : str)
  : pack_state :=
  let clause_tokens := count_tokens clause in
  if ((current_tokens st + clause_tokens >? target_size)%Z
      && nonempty (current_chunk st))%bool
  then
    let c := make_chunk (counter st) name (current_chunk st)
                        (i - Z.of_nat (len (current_chunk st))) (i - 1) in
    if ((overlap >? 0)%Z && (0 <? len (current_chunk st)))%bool
    then
      let seed := [last (current_chunk st) []; clause] in
      {| chunks := chunks st ++ [c];
         counter := S (counter st);
         current_chunk := seed;
         current_tokens := count_tokens (join [NL] seed) |}
    else
      {| chunks := chunks st ++ [c];
         counter := S (counter st);
         current_chunk := [clause];
         current_tokens := clause_tokens |}
  else
    {| chunks := chunks st;
       counter := counter st;
       current_chunk := current_chunk st ++ [clause];
       current_tokens := (current_tokens st + clause_tokens)%Z |}.

Fixpoint pack_loop (name : str) (st : pack_state) (i : Z) (clauses : list str)
  : pack_state :=
  match clauses with
  | [] => st
  | clause :: rest => pack_loop name (pack_step name st i clause) (i + 1) rest
  end.

(** [# Save last chunk of section]. *)
Definition flush (name : str) (st : pack_state) (n : Z) : list Chunk * nat :=
  if nonempty (current_chunk st) then
    (chunks st ++ [make_chunk (counter st) name (current_chunk st)
                              (n - Z.of_nat (len (current_chunk st))) (n - 1)],
     S (counter st))
  else (chunks st, counter st).

(** The body of [for section_data in sections], from the clauses on. *)
Definition pack_clauses (acc : list Chunk * nat) (name : str) (clauses : list str)
  : list Chunk * nat :=
  flush name
        (pack_loop name
                   {| chunks := fst acc; counter := snd acc;
                      current_chunk := []; current_tokens := 0 |}
                   0 clauses)
        (Z.of_nat (len clauses)).

Definition chunk_section (acc : list Chunk * nat) (section_data : SectionData)
  : list Chunk * nat :=
  pack_clauses acc (section_name section_data)
               (identify_clauses (section_text section_data)).

Definition create_chunks (secs : list SectionData) : list Chunk :=
  fst (fold_left chunk_section secs ([], 0)).

(** *** [filter_premium_tables], [save_chunks], [chunk] *)

Definition mark_premium (c : Chunk) : Chunk :=
  {| chunk_id := chunk_id c;
     section := section c;
     text := text c;
     token_count := token_count c;
     clause_index := clause_index c;
     is_premium_table :=
       Some (contains PREMIUM_TABLE (text c) || contains PREMIUM_CHART (text c)) |}.

Definition filter_premium_tables (cs : list Chunk) : list Chunk :=
  map mark_premium cs.

(** The effect of a run on the output artifact ([None]: not written) and
    how the run ends. *)
Definition outcome : Type := (option (list Chunk) * result unit)%type.

(** [save_chunks] writes the artifact and then prints statistics, among
    them [total_tokens / len(chunks)]. *)
Definition save_chunks (cs : list Chunk) : outcome :=
  (Some cs,
   match len cs with
   | O => inl ZeroDivisionError
   | S _ => inr tt
   end).

(** [chunk]: the input artifact is [None] when the file does not exist,
    and otherwise the text that [f.read()] returns, that is, the file
    decoded, with its line ends translated to [\n].  The endings are
    those the code of this file brings about; the runs described are
    those in which the calls into the libraries return: the file
    decodes, and the tokenizer, a function here, accepts every text it
    is given. *)
Definition chunk (input : option str) : outcome :=
  match input with
  | None => (None, inl FileNotFoundError)
  | Some text0 =>
      match split_into_sections text0 with
      | inl e => (None, inl e)
      | inr secs => save_chunks (filter_premium_tables (create_chunks secs))
      end
  end.

End Chunker.

End Chunker.

(* ===================================================================== *)
(** ** scripts/embed_generator.py *)
(* ===================================================================== *)

Module EmbedGenerator.
Import PyStr.

Section Embed.

(** The type of the floats of an embedding; no arithmetic is done on
    them. *)
Variable F : Type.

(** An embedding-record dictionary. *)
Record EmbeddingRecord : Type := {
  chunk_id : str;
  section : str;
  text : str;
  token_count : Z;
  embedding : list F;
  embedding_dim : nat;
  is_premium_table : bool;
  priority : str
}.

(** The embedding provider: a service with a state of its own.  One call
    of [client.models.embed_content(...)] followed by
    [.embeddings[0].values] either yields a vector or raises; [None]
    stands for any exception. *)
Variable provider : Type.
Variable embed_content : provider -> str -> option (list F) * provider.

(** [self.skip_premium_tables]. *)
Variable skip_premium_tables : bool.

(** [generate_embedding]: [try: return ... except Exception: return None]. *)
Definition generate_embedding (p : provider) (text0 : str)
  : option (list F) * provider :=
  embed_content p text0.

(** [chunk.get('is_premium_table', False)] and, for a flag that is a
    boolean or absent, the truthiness of [chunk.get('is_premium_table')]. *)
Definition get_premium (c : Chunker.Chunk) : bool :=
  match Chunker.is_premium_table c with
  | Some b => b
  | None => false
  end.

Definition make_record (c : Chunker.Chunk) (v : list F) : EmbeddingRecord :=
  {| chunk_id := Chunker.chunk_id c;
     section := Chunker.section c;
     text := Chunker.text c;
     token_count := Chunker.token_count c;
     embedding := v;
     embedding_dim := len v;
     is_premium_table := get_premium c;
     priority := if get_premium c then lit "low" else lit "high" |}.

(** One iteration of [for i, chunk in enumerate(chunks, 1)].  [if
    embedding:] is false for [None] and for an empty list. *)
Definition embed_step (acc : list EmbeddingRecord * provider) (c : Chunker.Chunk)
  : list EmbeddingRecord * provider :=
  if skip_premium_tables && get_premium c then acc
  else
    let r := generate_embedding (snd acc) (Chunker.text c) in
    match fst r with
    | Some (x :: v) => (fst acc ++ [make_record c (x :: v)], snd r)
    | Some [] => (fst acc, snd r)
    | None => (fst acc, snd r)
    end.

Definition generate_all_embeddings (p : provider) (cs : list Chunker.Chunk)
  : list EmbeddingRecord * provider :=
  fold_left embed_step cs ([], p).

(** What the provider answers, call after call, when asked for the given
    texts in order. *)
Fixpoint responses (p : provider) (texts : list str) : list (option (list F)) :=
  match texts with
  | [] => []
  | t :: ts =>
      let r := generate_embedding p t in fst r :: responses (snd r) ts
  end.

End Embed.

(** A provider that differs from [embed_content] only in raising where
    [embed_content] returns an empty vector. *)
Definition fail_on_empty {F provider : Type}
  (embed_content : provider -> str -> option (list F) * provider)
  (p : provider) (text0 : str) : option (list F) * provider :=
  match embed_content p text0 with
  | (Some [], p') => (None, p')
  | r => r
  end.

End EmbedGenerator.

(* ===================================================================== *)
(** ** Notions used to state the properties *)
(* ===================================================================== *)

Module Props.
Import PyStr Chunker.

(** [a] occurs in [s] as a contiguous run. *)
Definition infix (a s : str) : Prop := exists l1 l2, s = l1 ++ a ++ l2.

(** [buf] is the run of [len buf] elements of [l] that starts at index
    [a]. *)
Definition run_at {A : Type} (l : list A) (a : nat) (buf : list A) : Prop :=
  exists pre post, l = pre ++ buf ++ post /\ len pre = a.

(** A segment: the index of its first clause and its clauses. *)
Definition segment : Type := (nat * list str)%type.

(** The inclusive range of clause positions of a segment, as the code
    computes it. *)
Definition seg_range (sg : segment) : Z * Z :=
  (Z.of_nat (fst sg), Z.of_nat (fst sg) + Z.of_nat (len (snd sg)) - 1)%Z.

(** The text of a [clause_index] field. *)
Definition render_range (r : Z * Z) : str :=
  str_of_Z (fst r) ++ lit "-" ++ str_of_Z (snd r).

(** Ranges laid end to end from [s]: each range starts where the previous
    one dictates, one past its end without overlap ([ov = false]) and on
    its end with overlap; [e] is where a further range would start.  With
    overlap every range but the very first ([first = true]) holds at least
    two positions. *)
Inductive chained (ov : bool) : bool -> Z -> list (Z * Z) -> Z -> Prop :=
| chained_nil : forall first s, chained ov first s [] s
| chained_cons : forall first s hi rs e,
    (s + (if ov && negb first then 1 else 0) <= hi)%Z ->
    chained ov false (if ov then hi else hi + 1)%Z rs e ->
    chained ov first s ((s, hi) :: rs) e.

(** Whether the range [r] contains position [j]. *)
Definition covers (j : Z) (r : Z * Z) : bool :=
  ((fst r <=? j) && (j <=? snd r))%Z.

(** In how many of the ranges position [j] lies. *)
Definition cover_count (j : Z) (rs : list (Z * Z)) : nat :=
  len (filter (covers j) rs).

(** The ends of all ranges but the last: the positions at which one range
    hands over to the next. *)
Definition boundaries (rs : list (Z * Z)) : list Z := map snd (removelast rs).

(** The pieces of text between the section markers, and the text with the
    markers removed. *)
Definition between_markers (text0 : str) : list str :=
  let r := split_markers 0 text0 in fst r :: map snd (snd r).

Definition strip_markers (text0 : str) : str :=
  List.concat (between_markers text0).

Section WithTokenizer.
Variable encode : str -> list N.

(** The chunks made from consecutive segments, numbered from [n]. *)
Fixpoint chunks_of (n : nat) (name : str) (segs : list segment) : list Chunk :=
  match segs with
  | [] => []
  | sg :: segs' =>
      make_chunk encode n name (snd sg) (fst (seg_range sg)) (snd (seg_range sg))
      :: chunks_of (S n) name segs'
  end.

(** What holds of the state of the packing loop of one section once the
    clauses [done] have been processed, the loop having started with the
    chunks [cs0] and the counter [n0]: the chunks added are those of
    segments [segs] of [done], laid end to end from position 0, and the
    buffer is the segment that comes next. *)
Definition pack_inv (ov : bool) (cs0 : list Chunk) (n0 : nat) (name : str)
  (done : list str) (st : pack_state) : Prop :=
  exists (segs : list segment) (pre : list str),
    chunks st = cs0 ++ chunks_of n0 name segs /\
    counter st = n0 + len segs /\
    done = pre ++ current_chunk st /\
    chained ov true 0 (map seg_range segs) (Z.of_nat (len pre)) /\
    Forall (fun sg => run_at done (fst sg) (snd sg)) segs /\
    (done <> [] -> current_chunk st <> []) /\
    (ov = true -> segs <> [] -> 2 <= len (current_chunk st)).

(** The chunk [c] packs a non-empty run of the clauses of the section
    [sec]. *)
Definition from_section (target_size : Z) (is_decimal : char -> bool)
  (sec : SectionData) (c : Chunk) : Prop :=
  exists (n : nat) (sg : segment),
    snd sg <> [] /\
    run_at (identify_clauses encode target_size is_decimal (section_text sec))
           (fst sg) (snd sg) /\
    c = make_chunk encode n (section_name sec) (snd sg)
                   (fst (seg_range sg)) (snd (seg_range sg)).

End WithTokenizer.

(** The records kept for chunks whose answers are [rs], answer by answer:
    a chunk is kept when its answer is a non-empty vector. *)
Fixpoint records_of {F : Type} (cs : list Chunk) (rs : list (option (list F)))
  : list (EmbedGenerator.EmbeddingRecord F) :=
  match cs, rs with
  | c :: cs', Some (x :: v) :: rs' =>
      EmbedGenerator.make_record c (x :: v) :: records_of cs' rs'
  | _ :: cs', _ :: rs' => records_of cs' rs'
  | _, _ => []
  end.

(** The identifier of the chunk numbered [n]. *)
Definition id_of (n : nat) : str := lit "chunk_" ++ format_04d n.

End Props.

(* ===================================================================== *)
(** ** Sample inputs *)
(* ===================================================================== *)

Module Samples.
Import PyStr Chunker.

(** A tokenizer for the examples: one token per character. *)
Definition char_tokens (s : str) : list N := s.

(** The ASCII digits, which all belong to Nd. *)
Definition ascii_digit (c : char) : bool := ((48 <=? c) && (c <=? 57))%N.

Definition line (s : string) : str := lit s ++ [NL].

(** A premium-table section of three row groups. *)
Definition table_section : SectionData :=
  {| section_name := lit "PLAN DETAILS";
     section_text :=
       line "HEALTH ELITE PLUS - PREMIUM CHART" ++
       line "Age / SI 5L 10L" ++
       lit "Indiv. 21-35 8000 9000" |}.

(** A premium table of sixty rows, longer than the default target. *)
Definition long_table_section : SectionData :=
  {| section_name := lit "PLAN DETAILS";
     section_text :=
       line "HEALTH ELITE PLUS - PREMIUM CHART" ++
       List.concat (repeat (line "Age / SI 5L 10L 15L 20L") 60) ++
       lit "Indiv. 21-35 8000 9000" |}.

(** The clean text of a policy whose only section is that table. *)
Definition long_table_file : str :=
  line "### SECTION: PLAN DETAILS ###" ++ section_text long_table_section.

(** A section in which a sentence of prose precedes the table. *)
Definition mixed_table_section : SectionData :=
  {| section_name := lit "PLAN DETAILS";
     section_text :=
       line "Premiums depend on the age of the eldest member." ++
       line "HEALTH ELITE PLUS - PREMIUM CHART" ++
       line "Age / SI 5L 10L" ++
       lit "Indiv. 21-35 8000 9000" |}.

(** A provider that always answers, with a one-dimensional vector. *)
Definition answering (calls : nat) (_ : str) : option (list nat) * nat :=
  (Some [calls], S calls).

(** Two sections around one marker. *)
Definition two_sections : str :=
  line "Intro" ++ line "" ++ line "### SECTION: KEY POINTS ###"
  ++ lit "Key Points".

Definition bullets_ABCD : SectionData :=
  {| section_name := lit "KEY POINTS";
     section_text :=
       line "1. aaaa" ++ line "2. bbbb" ++ line "3. cccc" ++ lit "4. dddd" |}.




End Samples.

(* ===================================================================== *)
(** ** scripts/embed_generator.py: saving and the whole run *)
(* ===================================================================== *)

Module EmbedRun.
Import PyStr.

(** The exceptions the embedding run can raise. *)
Inductive error : Set :=
| ValueError
| FileNotFoundError
| IndexError.

Definition result (A : Type) : Type := (error + A)%type.

Section Run.

Variable F : Type.
Variable provider : Type.
Variable embed_content : provider -> str -> option (list F) * provider.
Variable skip_premium_tables : bool.

(** A record of [chunks_metadata.json]. *)
Record MetadataRecord : Set := {
  chunk_id : str;
  section : str;
  text_preview : str;
  token_count : Z;
  embedding_dim : nat
}.

(** One element of the list comprehension of [save_embeddings];
    [e['text'][:200]] is the whole text when it is shorter. *)
Definition make_metadata (e : EmbedGenerator.EmbeddingRecord F) : MetadataRecord :=
  {| chunk_id := EmbedGenerator.chunk_id e;
     section := EmbedGenerator.section e;
     text_preview := firstn 200 (EmbedGenerator.text e) ++ lit "...";
     token_count := EmbedGenerator.token_count e;
     embedding_dim := EmbedGenerator.embedding_dim e |}.

(** The two output artifacts; [None]: not written. *)
Record files : Type := {
  embeddings_json : option (list (EmbedGenerator.EmbeddingRecord F));
  metadata_json : option (list MetadataRecord)
}.

Definition no_files : files :=
  {| embeddings_json := None; metadata_json := None |}.

(** [save_embeddings] writes both artifacts and then prints statistics,
    among them [embeddings[0]['embedding_dim']]. *)
Definition save_embeddings (embeddings : list (EmbedGenerator.EmbeddingRecord F))
  : files * result unit :=
  ({| embeddings_json := Some embeddings;
      metadata_json := Some (map make_metadata embeddings) |},
   match embeddings with
   | [] => inl IndexError
   | _ :: _ => inr tt
   end).

(** [generate]: the chunk artifact is [None] when the file does not
    exist.  The result holds the artifacts, how the run ends and the
    provider as the run leaves it. *)
Definition generate (input : option (list Chunker.Chunk)) (p : provider)
  : files * result unit * provider :=
  match input with
  | None => (no_files, inl FileNotFoundError, p)
  | Some cs =>
      let r := EmbedGenerator.generate_all_embeddings
                 embed_content skip_premium_tables p cs in
      (save_embeddings (fst r), snd r)
  end.

(** Truthiness of [os.getenv("GEMINI_API_KEY")]: set and not empty. *)
Definition key_present (api_key : option str) : bool :=
  match api_key with
  | Some (_ :: _) => true
  | _ => false
  end.

(** [EmbeddingGenerator.__init__], as far as it can fail. *)
Definition init (api_key : option str) : result unit :=
  if key_present api_key then inr tt else inl ValueError.

End Run.

(** [main]: without a key it prints the setup instructions and returns;
    otherwise it builds the generator, which skips premium tables by
    default, and runs it. *)
Definition main {F provider : Type}
  (embed_content : provider -> str -> option (list F) * provider)
  (api_key : option str) (input : option (list Chunker.Chunk)) (p : provider)
  : files F * result unit * provider :=
  if negb (key_present api_key) then (no_files F, inr tt, p)
  else
    match init api_key with
    | inl e => (no_files F, inl e, p)
    | inr _ => generate embed_content true input p
    end.

End EmbedRun.

(* ===================================================================== *)
(** ** run_phase1.py *)
(* ===================================================================== *)

Module RunPhase1.
Import PyStr.

Section Pipeline.

(** Everything outside the orchestrator that a stage can read or change. *)
Variable world : Type.
(** [subprocess.run(command, shell=True, check=True)]: whether the command
    exits with status 0, and the world it leaves. *)
Variable run : world -> str -> bool * world.

(** [run_command]: [True] on success, [False] on [CalledProcessError]. *)
Definition run_command (w : world) (command description : str) : bool * world :=
  run w command.

(** The three existence checks of [check_prerequisites]. *)
Record prerequisites : Set := {
  pdf_exists : bool;
  env_exists : bool;
  requirements_exist : bool
}.

(** [all_good] starts true and is cleared by every failed check. *)
Definition check_prerequisites (pre : prerequisites) : bool :=
  fold_left (fun all_good r => if negb r then false else all_good)
            [pdf_exists pre; env_exists pre; requirements_exist pre] true.

Definition steps : list (str * str) :=
  [ (lit "python scripts/pdf_parser.py", lit "Step 1/4: PDF Parsing");
    (lit "python scripts/text_cleaner.py", lit "Step 2/4: Text Cleaning");
    (lit "python scripts/chunker.py", lit "Step 3/4: Clause-Aware Chunking");
    (lit "python scripts/embed_generator.py",
     lit "Step 4/4: Embedding Generation") ].

(** [for command, description in steps]: the exit status ([1] for
    [sys.exit(1)], [0] when the loop ends) and the world left. *)
Fixpoint run_steps (w : world) (l : list (str * str)) : nat * world :=
  match l with
  | [] => (0, w)
  | (command, description) :: rest =>
      let r := run_command w command description in
      if fst r then run_steps (snd r) rest else (1, snd r)
  end.

Definition main (pre : prerequisites) (w : world) : nat * world :=
  if negb (check_prerequisites pre) then (1, w) else run_steps w steps.

(** The world after running the commands [l] one after the other,
    whatever their outcome. *)
Fixpoint after (w : world) (l : list (str * str)) : world :=
  match l with
  | [] => w
  | (command, _) :: rest => after (snd (run w command)) rest
  end.

(** Whether each command of [l] succeeds when they are run one after
    the other. *)
Fixpoint outcomes (w : world) (l : list (str * str)) : list bool :=
  match l with
  | [] => []
  | (command, _) :: rest =>
      fst (run w command) :: outcomes (snd (run w command)) rest
  end.

(** The position of the first [false]. *)
Fixpoint first_failure (bs : list bool) : option nat :=
  match bs with
  | [] => None
  | false :: _ => Some 0
  | true :: bs' => option_map S (first_failure bs')
  end.

End Pipeline.

End RunPhase1.

(* ===================================================================== *)
(** ** Further notions used to state properties *)
(* ===================================================================== *)

Module Document.
Import PyStr Chunker.

(** A section marker as the extractor writes it. *)
Definition marker (name : str) : str :=
  lit "### SECTION: " ++ name ++ lit " ###".

(** A text made of a preamble and of marked parts. *)
Definition document (pre : str) (parts : list (str * str)) : str :=
  pre ++ List.concat (map (fun nb => marker (fst nb) ++ snd nb) parts).

(** The section kept for a piece of text: none when the piece is blank. *)
Definition kept (name t : str) : list SectionData :=
  if truthy (strip t)
  then [ {| section_name := name; section_text := strip t |} ]
  else [].

Definition expected_sections (pre : str) (parts : list (str * str))
  : list SectionData :=
  kept (lit "Introduction") pre ++ flat_map (fun nb => kept (fst nb) (snd nb)) parts.

(** A piece of text in which no marker can start. *)
Definition plain (t : str) : Prop := contains (lit "### S") t = false.

(** A section name that a marker can carry. *)
Definition good_name (n : str) : Prop :=
  n <> [] /\ ~ In HASH n /\ ~ In NL n.

(** A string of whitespace only. *)
Definition blank (s : str) : bool := forallb is_space s.

(** A chunk without its identifier. *)
Definition body (c : Chunk) : str * str * Z * str :=
  (section c, text c, token_count c, clause_index c).

(** [a] is [b] with some elements left out. *)
Inductive subseq {A : Type} : list A -> list A -> Prop :=
| subseq_nil : subseq [] []
| subseq_skip : forall x a b, subseq a b -> subseq a (x :: b)
| subseq_keep : forall x a b, subseq a b -> subseq (x :: a) (x :: b).

Section WithTokenizer.
Variable encode : str -> list N.

(** The token counts of the clauses of a buffer, added up. *)
Definition clause_tokens (buf : list str) : Z :=
  fold_right (fun c acc => (count_tokens encode c + acc)%Z) 0%Z buf.

(** A segment within the soft bound: the token counts of its clauses,
    which are what the packing loop adds up, come to at most the target,
    unless the segment holds a single clause. *)
Definition within (target_size : Z) (sg : Props.segment) : Prop :=
  (clause_tokens (snd sg) <= target_size)%Z \/ len (snd sg) = 1.

(** The state of the packing loop of one section when there is no
    overlap, once the clauses [done] have been processed, the loop having
    started with the chunks [cs0] and the counter [n0]: the chunks added
    are those of segments of [done], each a non-empty run within the
    bound; the buffer holds the clauses that follow, the running count
    is the sum of their token counts, and the buffer is within the bound
    or holds at most one clause. *)
Definition bounded (target_size : Z) (cs0 : list Chunk) (n0 : nat)
  (name : str) (done : list str) (st : pack_state) : Prop :=
  exists (segs : list Props.segment) (pre : list str),
    chunks st = cs0 ++ Props.chunks_of encode n0 name segs /\
    counter st = n0 + len segs /\
    done = pre ++ current_chunk st /\
    Forall (fun sg => snd sg <> [] /\
                      Props.run_at done (fst sg) (snd sg) /\
                      within target_size sg) segs /\
    current_tokens st = clause_tokens (current_chunk st) /\
    ((clause_tokens (current_chunk st) <= target_size)%Z
     \/ len (current_chunk st) <= 1).

(** The chunk [c] packs the segment [sg] of the clauses of the section
    [sec]: its clauses are the run [snd sg] that starts at clause
    [fst sg], and its fields are those [make_chunk] computes from them. *)
Definition packs (target_size : Z) (is_decimal : char -> bool)
  (sec : SectionData) (sg : Props.segment) (c : Chunk) : Prop :=
  snd sg <> [] /\
  Props.run_at (identify_clauses encode target_size is_decimal (section_text sec))
               (fst sg) (snd sg) /\
  section c = section_name sec /\
  text c = join [NL] (snd sg) /\
  token_count c = count_tokens encode (text c) /\
  clause_index c = Props.render_range (Props.seg_range sg).

End WithTokenizer.

(** Two states of the packing loop with the same buffer, whose chunks
    added to [old1] and [old2] differ in their identifiers only. *)
Definition alike (st1 st2 : pack_state) (old1 old2 : list Chunk) : Prop :=
  current_chunk st1 = current_chunk st2 /\
  current_tokens st1 = current_tokens st2 /\
  exists new1 new2,
    chunks st1 = old1 ++ new1 /\ chunks st2 = old2 ++ new2 /\
    map body new1 = map body new2.

End Document.

(* ===================================================================== *)
(** ** Further sample inputs *)
(* ===================================================================== *)

Module MoreSamples.
Import PyStr Chunker Samples.

(** The preamble and the marked parts of a small policy text; the second
    part holds a topic marker, the third is blank. *)
Definition policy_preamble : str := line "Policy wording" ++ line "".

Definition policy_parts : list (str * str) :=
  [ (lit "KEY POINTS", [NL] ++ line "Key Points To Note:" ++ line "");
    (lit "EXCLUSIONS",
     [NL] ++ line "### TOPIC: EXCLUSIONS ###" ++ lit "What We Will Not Pay ");
    (lit "FAQs", [NL] ++ lit "  ") ].

End MoreSamples.

(* ===================================================================== *)
(** ** The packing loop of [create_chunks] *)
(* ===================================================================== *)

Module PackingFacts.
Import PyStr Chunker Props.

Section Packing.

Variable encode : str -> list N.
Variables target_size overlap : Z.

Local Abbreviation count_tokens := (Chunker.count_tokens encode).
Local Abbreviation make_chunk := (Chunker.make_chunk encode).
Local Abbreviation pack_step := (Chunker.pack_step encode target_size overlap).
Local Abbreviation pack_loop := (Chunker.pack_loop encode target_size overlap).
Local Abbreviation flush := (Chunker.flush encode).
Local Abbreviation pack_clauses := (Chunker.pack_clauses encode target_size overlap).

Lemma count_tokens_nonneg (s : str) : (0 <= count_tokens s)%Z.
Proof. unfold Chunker.count_tokens. lia. Qed.

Lemma nonempty_true {A : Type} (l : list A) : nonempty l = true <-> l <> [].
Proof. destruct l; simpl; split; intros; congruence. Qed.

(** The two outcomes of one iteration. *)
Lemma pack_step_keep (name : str) (st : pack_state) (i : Z) (clause : str) :
  ((current_tokens st + count_tokens clause >? target_size)%Z
   && nonempty (current_chunk st))%bool = false ->
  pack_step name st i clause =
  {| chunks := chunks st;
     counter := counter st;
     current_chunk := current_chunk st ++ [clause];
     current_tokens := (current_tokens st + count_tokens clause)%Z |}.
Proof. intros H. unfold Chunker.pack_step. rewrite H. reflexivity. Qed.

Lemma pack_step_close (name : str) (st : pack_state) (i : Z) (clause : str) :
  (current_tokens st + count_tokens clause > target_size)%Z ->
  current_chunk st <> [] ->
  let seed := if (overlap >? 0)%Z
              then [last (current_chunk st) []; clause] else [clause] in
  pack_step name st i clause =
  {| chunks := chunks st ++
               [make_chunk (counter st) name (current_chunk st)
                           (i - Z.of_nat (len (current_chunk st))) (i - 1)];
     counter := S (counter st);
     current_chunk := seed;
     current_tokens := count_tokens (join [NL] seed) |}.
Proof.
  intros Hgt Hne. unfold Chunker.pack_step.
  assert (Hc : (current_tokens st + count_tokens clause >? target_size)%Z = true)
    by (apply Z.gtb_lt; lia).
  rewrite Hc. apply nonempty_true in Hne. rewrite Hne. simpl andb.
  assert (Hl : (0 <? len (current_chunk st)) = true).
  { destruct (current_chunk st); [discriminate | reflexivity]. }
  rewrite Hl, andb_true_r.
  destruct (overlap >? 0)%Z; reflexivity.
Qed.

(** Every iteration is one of the two. *)
Lemma pack_step_cases (name : str) (st : pack_state) (i : Z) (clause : str) :
  (((current_tokens st + count_tokens clause <= target_size)%Z
    \/ current_chunk st = []) /\
   pack_step name st i clause =
   {| chunks := chunks st;
      counter := counter st;
      current_chunk := current_chunk st ++ [clause];
      current_tokens := (current_tokens st + count_tokens clause)%Z |})
  \/
  ((current_tokens st + count_tokens clause > target_size)%Z /\
   current_chunk st <> []).
Proof.
  destruct (Z.gtb_spec (current_tokens st + count_tokens clause) target_size)
    as [Hgt | Hle].
  - destruct (current_chunk st) as [|x l] eqn:Hb.
    + left. split; [now right|].
      rewrite pack_step_keep, Hb; [reflexivity|].
      rewrite Hb. apply andb_false_r.
    + right. split; [lia | discriminate].
  - left. split; [now left|]. apply pack_step_keep.
    rewrite Z.gtb_ltb. replace (_ <? _)%Z with false; [reflexivity|].
    symmetry. apply Z.ltb_ge. lia.
Qed.

(** The loops only ever append to [chunks]. *)
Lemma pack_step_extends (name : str) (st : pack_state) (i : Z) (clause : str) :
  exists more, chunks (pack_step name st i clause) = chunks st ++ more.
Proof.
  unfold Chunker.pack_step.
  destruct (_ && _)%bool.
  - destruct (_ && _)%bool; simpl; eauto.
  - exists []. simpl. now rewrite app_nil_r.
Qed.

Lemma pack_loop_extends (name : str) (clauses : list str) :
  forall (st : pack_state) (i : Z),
  exists more, chunks (pack_loop name st i clauses) = chunks st ++ more.
Proof.
  induction clauses as [|c cs IH]; intros st i; simpl.
  - exists []. now rewrite app_nil_r.
  - destruct (IH (pack_step name st i c) (i + 1)%Z) as [m1 H1].
    destruct (pack_step_extends name st i c) as [m0 H0].
    exists (m0 ++ m1). rewrite H1, H0. now rewrite app_assoc.
Qed.

Lemma flush_extends (name : str) (st : pack_state) (n : Z) :
  exists more, fst (flush name st n) = chunks st ++ more.
Proof.
  unfold Chunker.flush. destruct (nonempty _); simpl; eauto.
  exists []. now rewrite app_nil_r.
Qed.

(** Two clauses that fit the target together are both kept in the
    buffer. *)
Lemma first_two_steps (name : str) (st : pack_state) (A B : str) :
  current_chunk st = [] -> current_tokens st = 0%Z ->
  (count_tokens A + count_tokens B <= target_size)%Z ->
  pack_step name (pack_step name st 0 A) 1 B =
  {| chunks := chunks st; counter := counter st;
     current_chunk := [A; B];
     current_tokens := (count_tokens A + count_tokens B)%Z |}.
Proof.
  intros Hb Ht Hle.
  rewrite (pack_step_keep name st 0 A) by (rewrite Hb; simpl; apply andb_false_r).
  rewrite pack_step_keep; simpl; rewrite Hb, Ht; simpl.
  - reflexivity.
  - rewrite andb_true_r, Z.gtb_ltb. apply Z.ltb_ge. lia.
Qed.

Lemma join_snoc (sep c : str) (buf : list str) :
  buf <> [] -> join sep (buf ++ [c]) = join sep buf ++ sep ++ c.
Proof.
  induction buf as [|x buf IH]; intros Hne; [congruence|].
  destruct buf as [|y buf]; [reflexivity|].
  change (join sep ((x :: y :: buf) ++ [c]))
    with (x ++ sep ++ join sep ((y :: buf) ++ [c])).
  rewrite IH by discriminate.
  change (join sep (x :: y :: buf)) with (x ++ sep ++ join sep (y :: buf)).
  now rewrite <- !app_assoc.
Qed.

(** The chunk emitted next begins with what the buffer holds. *)
Lemma next_chunk_prefix (name : str) (rest : list str) :
  forall (st : pack_state) (i n : Z),
  current_chunk st <> [] ->
  exists c1 more tail,
    fst (flush name (pack_loop name st i rest) n) = chunks st ++ c1 :: more /\
    text c1 = join [NL] (current_chunk st) ++ tail.
Proof.
  induction rest as [|c rest IH]; intros st i n Hne.
  - simpl. unfold Chunker.flush.
    apply nonempty_true in Hne. rewrite Hne. simpl.
    eexists _, [], []. split; [reflexivity|]. simpl. now rewrite app_nil_r.
  - simpl Chunker.pack_loop.
    destruct (pack_step_cases name st i c) as [[_ Hk] | [Hgt _]].
    + rewrite Hk.
      match goal with
      | |- context [Chunker.pack_loop _ _ _ name ?s ?j rest] =>
          destruct (IH s j n) as (c1 & more & tail & Heq & Htext)
      end.
      { simpl. destruct (current_chunk st); discriminate. }
      simpl in Heq, Htext. rewrite join_snoc in Htext by assumption.
      exists c1, more, ([NL] ++ c ++ tail). split; [exact Heq|].
      rewrite Htext. now rewrite <- !app_assoc.
    + rewrite pack_step_close by assumption.
      match goal with
      | |- context [Chunker.pack_loop _ _ _ name ?s ?j rest] =>
          destruct (pack_loop_extends name rest s j) as [m1 H1];
          destruct (flush_extends name (pack_loop name s j rest) n) as [m2 H2]
      end.
      rewrite H2, H1. simpl.
      eexists _, (m1 ++ m2), []. split.
      * rewrite <- !app_assoc. reflexivity.
      * simpl. now rewrite app_nil_r.
Qed.

(** C1.  When a chunk is closed (adding the clause would exceed
    [target_size] and the buffer is not empty), the new buffer is the last
    clause of the closed buffer followed by the current clause if the
    overlap, a count of tokens, is not zero, and the current clause alone
    if it is zero; with overlap the chunk emitted next therefore begins
    with that last clause, a newline and the current clause.  Hence a
    section with clauses [A, B, C, D] that is closed after [B] yields a
    first chunk [A\nB] and a next chunk whose text begins with [B\nC]. *)
Theorem overlap_seeds_next_buffer
  (name : str) (st : pack_state) (i n : Z) (clause A B C D : str)
  (rest : list str) (acc : list Chunk * nat) :
  (0 <= overlap)%Z ->
  ((current_tokens st + count_tokens clause > target_size)%Z ->
   current_chunk st <> [] ->
   current_chunk (pack_step name st i clause) =
   (if (overlap =? 0)%Z then [clause]
    else [last (current_chunk st) []; clause]) /\
   (overlap <> 0%Z ->
    exists c1 more tail,
      fst (flush name (pack_loop name (pack_step name st i clause) (i + 1) rest) n)
      = (chunks st ++
         [make_chunk (counter st) name (current_chunk st)
                     (i - Z.of_nat (len (current_chunk st))) (i - 1)])
        ++ c1 :: more /\
      text c1 = last (current_chunk st) [] ++ [NL] ++ clause ++ tail))
  /\
  (overlap <> 0%Z ->
   (count_tokens A + count_tokens B <= target_size)%Z ->
   (count_tokens A + count_tokens B + count_tokens C > target_size)%Z ->
   exists c0 c1 more tail,
     fst (pack_clauses acc name [A; B; C; D]) = fst acc ++ c0 :: c1 :: more /\
     text c0 = A ++ [NL] ++ B /\
     text c1 = B ++ [NL] ++ C ++ tail).
Proof.
  intros Hov. split.
  - intros Hgt Hne. split.
    + rewrite pack_step_close by assumption. simpl.
      destruct (Z.eqb_spec overlap 0) as [-> | Hnz]; [reflexivity|].
      replace (overlap >? 0)%Z with true; [reflexivity|].
      symmetry. apply Z.gtb_lt. lia.
    + intros Hnz.
      assert (Hpos : (overlap >? 0)%Z = true) by (apply Z.gtb_lt; lia).
      rewrite pack_step_close by assumption. rewrite Hpos.
      match goal with
      | |- context [Chunker.pack_loop _ _ _ name ?s ?j rest] =>
          destruct (next_chunk_prefix name rest s j n)
            as (c1 & more & tail & Heq & Htext); [discriminate|]
      end.
      simpl in Heq, Htext.
      exists c1, more, tail. split; [exact Heq|].
      rewrite Htext. simpl. now rewrite <- !app_assoc.
  - intros Hnz HAB HABC.
    assert (Hpos : (overlap >? 0)%Z = true) by (apply Z.gtb_lt; lia).
    unfold Chunker.pack_clauses. simpl Chunker.pack_loop.
    rewrite first_two_steps by (simpl; auto).
    simpl.
    match goal with
    | |- context [Chunker.pack_step _ _ _ name ?s 2%Z C] =>
        rewrite (pack_step_close name s 2 C)
          by (simpl; first [lia | discriminate])
    end.
    simpl. rewrite Hpos.
    match goal with
    | |- context [Chunker.pack_step _ _ _ name ?st ?i D] =>
        destruct (pack_step_cases name st i D) as [[_ Hk] | [Hgt Hne]]
    end.
    + rewrite Hk. simpl.
      eexists _, _, [], ([NL] ++ D). split.
      * rewrite <- app_assoc. reflexivity.
      * split; reflexivity.
    + rewrite pack_step_close by assumption. simpl. rewrite Hpos. simpl.
      eexists _, _, [_], []. split.
      * rewrite <- !app_assoc. reflexivity.
      * split; [reflexivity|]. simpl. now rewrite app_nil_r.
Qed.

(** C2.  A clause whose own token count exceeds [target_size] and that
    meets an empty buffer is emitted alone, whole, as one chunk: nothing
    is raised or cut, and an iteration that finds the buffer empty never
    closes a chunk.  The buffer is empty only before the first clause of
    a section, every iteration leaving it non-empty. *)
Theorem oversized_clause_alone
  (name : str) (acc : list Chunk * nat) (clause : str) (rest : list str) :
  (count_tokens clause > target_size)%Z ->
  (forall st i c, current_chunk st = [] ->
     chunks (pack_step name st i c) = chunks st /\
     current_chunk (pack_step name st i c) = [c])
  /\
  (forall st i c, current_chunk (pack_step name st i c) <> [])
  /\
  exists more,
    fst (pack_clauses acc name (clause :: rest)) =
    fst acc ++ make_chunk (snd acc) name [clause] 0 0 :: more /\
    text (make_chunk (snd acc) name [clause] 0 0) = clause /\
    token_count (make_chunk (snd acc) name [clause] 0 0) = count_tokens clause /\
    clause_index (make_chunk (snd acc) name [clause] 0 0) = lit "0-0".
Proof.
  intros Hbig. split; [|split].
  - intros st i c Hb.
    rewrite pack_step_keep by (rewrite Hb; apply andb_false_r).
    simpl. rewrite Hb. auto.
  - intros st i c.
    destruct (pack_step_cases name st i c) as [[_ Hk] | [Hgt Hne]].
    + rewrite Hk. simpl. destruct (current_chunk st); discriminate.
    + rewrite pack_step_close by assumption. simpl.
      destruct (overlap >? 0)%Z; discriminate.
  - unfold Chunker.pack_clauses. simpl Chunker.pack_loop.
    rewrite (pack_step_keep name _ 0 clause) by apply andb_false_r.
    simpl. destruct rest as [|c1 rest'].
    + simpl. exists []. repeat split; reflexivity.
    + simpl Chunker.pack_loop.
      pose proof (count_tokens_nonneg c1) as Hc1.
      rewrite pack_step_close by (simpl; first [lia | discriminate]).
      simpl.
      match goal with
      | |- context [Chunker.pack_loop _ _ _ name ?st ?i rest'] =>
          destruct (pack_loop_extends name rest' st i) as [m1 H1];
          destruct (flush_extends name (pack_loop name st i rest')
                      (Z.pos (Pos.succ (Pos.of_succ_nat (len rest')))))
            as [m2 H2]
      end.
      rewrite H2, H1. simpl.
      exists (m1 ++ m2). rewrite <- !app_assoc. simpl.
      repeat split; reflexivity.
Qed.

(** *** The segments behind the chunks of a section *)

Lemma chunks_of_app (n : nat) (name : str) (s1 s2 : list segment) :
  chunks_of encode n name (s1 ++ s2) =
  chunks_of encode n name s1 ++ chunks_of encode (n + len s1) name s2.
Proof.
  revert n. induction s1 as [|sg s1 IH]; intros n; simpl.
  - now rewrite Nat.add_0_r.
  - rewrite IH. do 3 f_equal. lia.
Qed.

Lemma make_chunk_ext (n n' : nat) (name : str) (buf : list str)
  (lo lo' hi hi' : Z) :
  n = n' -> lo = lo' -> hi = hi' ->
  make_chunk n name buf lo hi = make_chunk n' name buf lo' hi'.
Proof. intros; subst; reflexivity. Qed.

Lemma chunks_of_length (n : nat) (name : str) (segs : list segment) :
  len (chunks_of encode n name segs) = len segs.
Proof. revert n. induction segs; intros n; simpl; auto. Qed.

Lemma chained_snoc (ov first : bool) (s e hi : Z) (rs : list (Z * Z)) :
  chained ov first s rs e ->
  (e + (if ov && negb (first && negb (nonempty rs)) then 1 else 0) <= hi)%Z ->
  chained ov first s (rs ++ [(e, hi)]) (if ov then hi else hi + 1)%Z.
Proof.
  induction 1 as [first s | first s hi0 rs e Hle Hch IH]; intros Hhi; simpl in *.
  - rewrite andb_true_r in Hhi. constructor; [assumption | constructor].
  - constructor; [assumption|]. apply IH.
    rewrite andb_false_r in Hhi. exact Hhi.
Qed.

Lemma run_at_app {A : Type} (l x : list A) (a : nat) (buf : list A) :
  run_at l a buf -> run_at (l ++ x) a buf.
Proof.
  intros (pre & post & -> & Ha). exists pre, (post ++ x).
  split; [now rewrite <- !app_assoc | assumption].
Qed.

Lemma pack_inv_step (cs0 : list Chunk) (n0 : nat) (name : str)
  (done : list str) (st : pack_state) (c : str) :
  pack_inv encode (overlap >? 0)%Z cs0 n0 name done st ->
  pack_inv encode (overlap >? 0)%Z cs0 n0 name (done ++ [c])
           (pack_step name st (Z.of_nat (len done)) c).
Proof.
  intros (segs & pre & Hch & Hcnt & Hdone & Hchain & Hruns & Hne & Htwo).
  destruct (pack_step_cases name st (Z.of_nat (len done)) c)
    as [[_ Hk] | [Hgt Hbuf]].
  - rewrite Hk. exists segs, pre. simpl. repeat split; auto.
    + rewrite Hdone. now rewrite app_assoc.
    + eapply Forall_impl; [|exact Hruns]. intros sg. apply run_at_app.
    + intros _. destruct (current_chunk st); discriminate.
    + intros Hov Hs. specialize (Htwo Hov Hs). rewrite length_app. lia.
  - rewrite pack_step_close by assumption.
    assert (Hlen : len done = len pre + len (current_chunk st))
      by (rewrite Hdone at 1; apply length_app).
    assert (Hpos : 1 <= len (current_chunk st))
      by (destruct (current_chunk st); [congruence | simpl; lia]).
    assert (Hsnoc :
      chained (overlap >? 0)%Z true 0
        (map seg_range (segs ++ [(len pre, current_chunk st)]))
        (if (overlap >? 0)%Z
         then Z.of_nat (len pre) + Z.of_nat (len (current_chunk st)) - 1
         else Z.of_nat (len pre) + Z.of_nat (len (current_chunk st)) - 1 + 1)%Z).
    { rewrite map_app. simpl. unfold seg_range at 2. simpl.
      apply chained_snoc; [assumption|].
      destruct (overlap >? 0)%Z eqn:Hov; simpl; [|lia].
      destruct segs as [|sg segs']; simpl; [lia|].
      assert (2 <= len (current_chunk st)) by (apply Htwo; [reflexivity | discriminate]).
      lia. }
    assert (Hnew : Forall (fun sg => run_at (done ++ [c]) (fst sg) (snd sg))
                          (segs ++ [(len pre, current_chunk st)])).
    { apply Forall_app. split.
      - eapply Forall_impl; [|exact Hruns]. intros sg. apply run_at_app.
      - constructor; [|constructor]. simpl. exists pre, [c].
        split; [rewrite Hdone at 1; now rewrite <- app_assoc | reflexivity]. }
    exists (segs ++ [(len pre, current_chunk st)]).
    destruct (overlap >? 0)%Z eqn:Hov.
    + exists (pre ++ removelast (current_chunk st)). simpl.
      repeat split; auto.
      * rewrite Hch, chunks_of_app, <- app_assoc. simpl.
        do 3 f_equal. apply make_chunk_ext; unfold seg_range; simpl; lia.
      * rewrite length_app. simpl. lia.
      * rewrite Hdone at 1.
        rewrite (app_removelast_last [] Hbuf) at 1.
        now rewrite <- !app_assoc.
      * replace (Z.of_nat (len (pre ++ removelast (current_chunk st))))
          with (Z.of_nat (len pre) + Z.of_nat (len (current_chunk st)) - 1)%Z;
          [exact Hsnoc|].
        pose proof (f_equal (fun l => len l) (app_removelast_last [] Hbuf)) as Hrl.
        simpl in Hrl. rewrite length_app in Hrl. simpl in Hrl.
        rewrite length_app. unfold str in *. lia.
      * discriminate.
    + exists done. simpl. repeat split; auto.
      * rewrite Hch, chunks_of_app, <- app_assoc. simpl.
        do 3 f_equal. apply make_chunk_ext; unfold seg_range; simpl; lia.
      * rewrite length_app. simpl. lia.
      * replace (Z.of_nat (len done))
          with (Z.of_nat (len pre) + Z.of_nat (len (current_chunk st)) - 1 + 1)%Z
          by lia.
        exact Hsnoc.
      * discriminate.
      * discriminate.
Qed.

Lemma pack_inv_loop (cs0 : list Chunk) (n0 : nat) (name : str)
  (todo : list str) :
  forall (done : list str) (st : pack_state),
  pack_inv encode (overlap >? 0)%Z cs0 n0 name done st ->
  pack_inv encode (overlap >? 0)%Z cs0 n0 name (done ++ todo)
           (pack_loop name st (Z.of_nat (len done)) todo).
Proof.
  induction todo as [|c todo IH]; intros done st Hinv; simpl.
  - now rewrite app_nil_r.
  - replace (done ++ c :: todo) with ((done ++ [c]) ++ todo)
      by (now rewrite <- app_assoc).
    replace (Z.of_nat (len done) + 1)%Z with (Z.of_nat (len (done ++ [c])))
      by (rewrite length_app; simpl; lia).
    apply IH, pack_inv_step, Hinv.
Qed.

(** The chunks one section adds are those of segments of its clause list
    laid end to end from the first clause to the last. *)
Lemma pack_clauses_segments (acc : list Chunk * nat) (name : str)
  (clauses : list str) :
  exists segs : list segment,
    pack_clauses acc name clauses =
    (fst acc ++ chunks_of encode (snd acc) name segs, snd acc + len segs) /\
    Forall (fun sg => run_at clauses (fst sg) (snd sg)) segs /\
    (clauses = [] -> segs = []) /\
    (clauses <> [] ->
     segs <> [] /\
     chained (overlap >? 0)%Z true 0 (map seg_range segs)
             (if (overlap >? 0)%Z then Z.of_nat (len clauses) - 1
              else Z.of_nat (len clauses))).
Proof.
  destruct clauses as [|c0 cl].
  - exists []. unfold Chunker.pack_clauses, Chunker.flush. simpl.
    rewrite app_nil_r, Nat.add_0_r. destruct acc. repeat split; auto.
    congruence.
  - remember (c0 :: cl) as clauses eqn:Hcl.
    assert (Hnn : clauses <> []) by (subst; discriminate).
    clear Hcl.
    assert (Hinit : pack_inv encode (overlap >? 0)%Z (fst acc) (snd acc) name []
                      {| chunks := fst acc; counter := snd acc;
                         current_chunk := []; current_tokens := 0 |}).
    { exists [], []. simpl. rewrite app_nil_r, Nat.add_0_r.
      repeat split; auto; try constructor; congruence. }
    apply (pack_inv_loop clauses) in Hinit. simpl app in Hinit.
    unfold Chunker.pack_clauses. simpl (Z.of_nat (len [])) in Hinit.
    destruct Hinit as (segs & pre & Hch & Hcnt & Hdone & Hchain & Hruns & Hne & Htwo).
    set (st := pack_loop name _ 0 clauses) in *.
    assert (Hbuf : current_chunk st <> []) by (apply Hne; assumption).
    assert (Hlen : len clauses = len pre + len (current_chunk st))
      by (rewrite Hdone at 1; apply length_app).
    assert (Hpos : 1 <= len (current_chunk st))
      by (destruct (current_chunk st); [congruence | simpl; lia]).
    exists (segs ++ [(len pre, current_chunk st)]).
    unfold Chunker.flush. apply nonempty_true in Hbuf. rewrite Hbuf.
    repeat split.
    + f_equal.
      * rewrite Hch, chunks_of_app, <- app_assoc. simpl.
        do 3 f_equal. apply make_chunk_ext; unfold seg_range; simpl; lia.
      * rewrite Hcnt, length_app. simpl. lia.
    + apply Forall_app. split; [assumption|].
      constructor; [|constructor]. simpl. exists pre, [].
      split; [now rewrite app_nil_r | reflexivity].
    + intros ->. congruence.
    + destruct segs; discriminate.
    + rewrite map_app. simpl. unfold seg_range at 2. simpl.
      replace (if (overlap >? 0)%Z then Z.of_nat (len clauses) - 1
               else Z.of_nat (len clauses))%Z
        with (if (overlap >? 0)%Z
              then Z.of_nat (len pre) + Z.of_nat (len (current_chunk st)) - 1
              else Z.of_nat (len pre) + Z.of_nat (len (current_chunk st)) - 1 + 1)%Z
        by (destruct (overlap >? 0)%Z; lia).
      apply chained_snoc; [assumption|].
      destruct (overlap >? 0)%Z eqn:Hov; simpl; [|lia].
      destruct segs as [|sg segs']; simpl; [lia|].
      assert (2 <= len (current_chunk st))
        by (apply Htwo; [reflexivity | discriminate]).
      lia.
Qed.

End Packing.

End PackingFacts.

(* ===================================================================== *)
(** ** Ranges laid end to end *)
(* ===================================================================== *)

Module RangeFacts.
Import PyStr Props.

Lemma cover_count_cons (j : Z) (r : Z * Z) (rs : list (Z * Z)) :
  cover_count j (r :: rs) = (if covers j r then 1 else 0) + cover_count j rs.
Proof. unfold cover_count. simpl. destruct (covers j r); reflexivity. Qed.

Lemma boundaries_cons (r r' : Z * Z) (rs : list (Z * Z)) :
  boundaries (r :: r' :: rs) = snd r :: boundaries (r' :: rs).
Proof. reflexivity. Qed.

Lemma chained_head (ov first : bool) (s e : Z) (r : Z * Z) (rs : list (Z * Z)) :
  chained ov first s (r :: rs) e -> fst r = s.
Proof. inversion 1; reflexivity. Qed.

(** Without overlap the ranges partition [s, e). *)
Lemma chained_partition (first : bool) (s e : Z) (rs : list (Z * Z)) :
  chained false first s rs e ->
  (s <= e)%Z /\
  forall j, cover_count j rs = if ((s <=? j) && (j <? e))%Z then 1 else 0.
Proof.
  induction 1 as [first s | first s hi rs e Hle Hch IH].
  - split; [lia|]. intros j. unfold cover_count. simpl.
    destruct (Z.leb_spec s j), (Z.ltb_spec j s); simpl; auto; lia.
  - destruct IH as [Hse Hcount]. simpl in Hle.
    split; [lia|]. intros j. rewrite cover_count_cons, Hcount.
    unfold covers. simpl.
    destruct (Z.leb_spec s j), (Z.leb_spec j hi), (Z.leb_spec (hi + 1) j),
      (Z.ltb_spec j e); simpl; auto; lia.
Qed.

(** With overlap the ranges cover [s, e], and the positions covered
    twice are the boundaries. *)
Lemma chained_overlap (first : bool) (s e : Z) (rs : list (Z * Z)) :
  chained true first s rs e ->
  rs <> [] ->
  (s + (if first then 0 else 1) <= e)%Z /\
  (forall b, In b (boundaries rs) -> (s + (if first then 0 else 1) <= b < e)%Z) /\
  (forall j, count_occ Z.eq_dec (boundaries rs) j <= 1) /\
  (forall j, cover_count j rs =
             (if ((s <=? j) && (j <=? e))%Z then 1 else 0)
             + count_occ Z.eq_dec (boundaries rs) j).
Proof.
  induction 1 as [first s | first s hi rs e Hle Hch IH];
    intros Hne; [congruence|].
  assert (Hshi : (s + (if first then 0 else 1) <= hi)%Z)
    by (destruct first; simpl in Hle; lia).
  assert (Hd : (0 <= (if first then 0 else 1) <= 1)%Z) by (destruct first; lia).
  destruct rs as [|r rs'].
  - inversion Hch; subst. split; [|split; [|split]].
    + exact Hshi.
    + intros b [].
    + intros j. simpl. lia.
    + intros j. rewrite cover_count_cons. unfold cover_count, covers. simpl.
      lia.
  - destruct IH as (Hse & Hb & Hocc & Hcount); [discriminate|].
    simpl in Hse.
    split; [|split; [|split]].
    + lia.
    + intros b Hin. rewrite boundaries_cons in Hin. simpl in Hin.
      destruct Hin as [<- | Hin]; [lia|].
      apply Hb in Hin. simpl in Hin. lia.
    + intros j. rewrite boundaries_cons. simpl snd.
      destruct (Z.eq_dec hi j) as [-> | Hneq].
      * rewrite count_occ_cons_eq by reflexivity.
        assert (Hz : count_occ Z.eq_dec (boundaries (r :: rs')) j = 0).
        { apply count_occ_not_In. intros Hin. apply Hb in Hin.
          simpl in Hin. lia. }
        rewrite Hz. lia.
      * rewrite count_occ_cons_neq by assumption. apply Hocc.
    + intros j. rewrite cover_count_cons, Hcount, boundaries_cons.
      unfold covers. simpl fst. simpl snd.
      destruct (Z.eq_dec hi j) as [-> | Hneq].
      * rewrite count_occ_cons_eq by reflexivity.
        destruct (Z.leb_spec s j), (Z.leb_spec j j), (Z.leb_spec j e);
          simpl; lia.
      * rewrite count_occ_cons_neq by assumption.
        destruct (Z.leb_spec s j), (Z.leb_spec j hi), (Z.leb_spec hi j),
          (Z.leb_spec j e); simpl; lia.
Qed.

(** With overlap a boundary is the end of one range and the start of the
    next. *)
Lemma boundary_adjacent (first : bool) (s e : Z) (rs : list (Z * Z)) :
  chained true first s rs e ->
  forall j, In j (boundaries rs) ->
  exists l1 a b l2, rs = l1 ++ (a, j) :: (j, b) :: l2.
Proof.
  induction 1 as [first s | first s hi rs e Hle Hch IH];
    intros j Hin; [destruct Hin|].
  destruct rs as [|r rs']; [destruct Hin|].
  rewrite boundaries_cons in Hin. simpl in Hin.
  destruct Hin as [<- | Hin].
  - destruct r as [a b]. apply chained_head in Hch. simpl in Hch. subst a.
    exists [], s, b, rs'. reflexivity.
  - destruct (IH j Hin) as (l1 & a & b & l2 & Heq).
    exists ((s, hi) :: l1), a, b, l2. rewrite Heq. reflexivity.
Qed.

(** Every range holds at least one position. *)
Lemma chained_nonempty (ov first : bool) (s e : Z) (rs : list (Z * Z)) :
  chained ov first s rs e -> Forall (fun r => (fst r <= snd r)%Z) rs.
Proof.
  induction 1 as [first s | first s hi rs e Hle Hch IH]; constructor; auto.
  simpl. destruct (ov && negb first)%bool; lia.
Qed.

End RangeFacts.

(* ===================================================================== *)
(** ** Facts about strings *)
(* ===================================================================== *)

Module StrFacts.
Import PyStr Chunker Props.

Lemma startswith_prefix (p s : str) :
  startswith p s = true <-> exists t, s = p ++ t.
Proof.
  revert s. induction p as [|a p IH]; intros s; simpl.
  - split; eauto.
  - destruct s as [|b s].
    + split; [discriminate | intros [t Ht]; discriminate].
    + rewrite andb_true_iff, N.eqb_eq, IH. split.
      * intros [-> [t ->]]. eauto.
      * intros [t Ht]. injection Ht as -> ->. eauto.
Qed.

Lemma infix_refl (s : str) : infix s s.
Proof. exists [], []. now rewrite app_nil_r. Qed.

Lemma infix_nil (s : str) : infix [] s.
Proof. exists [], s. reflexivity. Qed.

Lemma infix_trans (a b c : str) : infix a b -> infix b c -> infix a c.
Proof.
  intros (l1 & l2 & ->) (m1 & m2 & ->).
  exists (m1 ++ l1), (l2 ++ m2). now rewrite <- !app_assoc.
Qed.

Lemma infix_cons (a s : str) (c : char) : infix a s -> infix a (c :: s).
Proof. intros (l1 & l2 & ->). exists (c :: l1), l2. reflexivity. Qed.

Lemma infix_prefix (p t : str) : infix p (p ++ t).
Proof. exists [], t. reflexivity. Qed.

Lemma infix_suffix (p t : str) : infix t (p ++ t).
Proof. exists p, []. now rewrite app_nil_r. Qed.

(** [sub in s] holds exactly when [sub] occurs in [s]. *)
Lemma contains_infix (sub s : str) : contains sub s = true <-> infix sub s.
Proof.
  induction s as [|c s IH].
  - simpl. rewrite orb_false_r, startswith_prefix. split.
    + intros [t Ht]. exists [], t. exact Ht.
    + intros (l1 & l2 & H). destruct l1; [eauto | discriminate].
  - simpl. rewrite orb_true_iff, IH, startswith_prefix. split.
    + intros [[t Ht] | H].
      * rewrite Ht. apply infix_prefix.
      * now apply infix_cons.
    + intros (l1 & l2 & H). destruct l1 as [|x l1].
      * left. eauto.
      * right. injection H as _ ->. exists l1, l2. reflexivity.
Qed.

Lemma contains_false_infix (sub s : str) :
  contains sub s = false -> ~ infix sub s.
Proof.
  intros H Hi. apply contains_infix in Hi. congruence.
Qed.

Lemma lstrip_suffix (s : str) : exists pre, s = pre ++ lstrip s.
Proof.
  induction s as [|c s [pre IH]]; simpl.
  - exists []. reflexivity.
  - destruct (is_space c).
    + exists (c :: pre). simpl. now f_equal.
    + exists []. reflexivity.
Qed.

Lemma strip_infix (s : str) : infix (strip s) s.
Proof.
  unfold strip.
  destruct (lstrip_suffix s) as [pre Hpre].
  destruct (lstrip_suffix (rev (lstrip s))) as [post Hpost].
  apply (f_equal (@rev char)) in Hpost.
  rewrite rev_involutive, rev_app_distr in Hpost.
  exists pre, (rev post). rewrite <- Hpost. exact Hpre.
Qed.

(** A run that avoids the separator lies on one side of it. *)
Lemma infix_split_at (sub l1 l2 : str) (c : char) :
  ~ In c sub -> infix sub (l1 ++ c :: l2) -> infix sub l1 \/ infix sub l2.
Proof.
  intros Hc (a & b & H).
  apply app_eq_app in H. destruct H as [l [[H1 H2] | [H1 H2]]].
  - apply app_eq_app in H2. destruct H2 as [l' [[H3 H4] | [H3 H4]]].
    + destruct l' as [|x l'].
      * left. rewrite app_nil_r in H3. subst. apply infix_suffix.
      * exfalso. injection H4 as -> _. apply Hc. rewrite H3.
        apply in_or_app. right. now left.
    + left. subst l1. rewrite H3. exists a, l'. reflexivity.
  - destruct l as [|x l].
    + simpl in H2. destruct sub as [|y sub].
      * left. apply infix_nil.
      * exfalso. injection H2 as -> _. apply Hc. now left.
    + right. injection H2 as _ ->. exists l, b. reflexivity.
Qed.

(** A non-empty run without newline inside newline-joined pieces lies
    inside one of the pieces. *)
Lemma infix_join (sub : str) (buf : list str) :
  ~ In NL sub -> sub <> [] -> infix sub (join [NL] buf) ->
  exists x, In x buf /\ infix sub x.
Proof.
  intros Hnl Hne. induction buf as [|x buf IH]; intros Hi.
  - simpl in Hi. destruct Hi as (l1 & l2 & H).
    destruct l1; [destruct sub; [congruence | discriminate] | discriminate].
  - destruct buf as [|y buf].
    + simpl in Hi. exists x. split; [now left | assumption].
    + change (join [NL] (x :: y :: buf)) with (x ++ NL :: join [NL] (y :: buf)) in Hi.
      apply infix_split_at in Hi; [|assumption].
      destruct Hi as [Hi | Hi].
      * exists x. split; [now left | assumption].
      * destruct (IH Hi) as (z & Hz & Hiz). exists z. split; [now right | assumption].
Qed.

(** The pieces of the splits occur in the text that is split. *)
Lemma split_before_pieces (la : str -> bool) (s : str) :
  exists p ps, split_before la s = p :: ps /\
               (exists t, s = p ++ t) /\
               Forall (fun x => infix x s) ps.
Proof.
  induction s as [|c s (p & ps & Heq & [t Ht] & Hps)]; simpl.
  - exists [], []. repeat split; [exists []; reflexivity | constructor].
  - destruct ((c =? NL)%N && la s)%bool.
    + exists [], (split_before la s). repeat split; [eexists; reflexivity|].
      rewrite Heq. constructor.
      * apply infix_cons. rewrite Ht. apply infix_prefix.
      * eapply Forall_impl; [|exact Hps]. intros x. apply infix_cons.
    + rewrite Heq. exists (c :: p), ps. repeat split.
      * exists t. simpl. now f_equal.
      * eapply Forall_impl; [|exact Hps]. intros x. apply infix_cons.
Qed.

Lemma split_before_infix (la : str -> bool) (s x : str) :
  In x (split_before la s) -> infix x s.
Proof.
  destruct (split_before_pieces la s) as (p & ps & -> & [t Ht] & Hps).
  intros [<- | Hin].
  - rewrite Ht. apply infix_prefix.
  - rewrite Forall_forall in Hps. auto.
Qed.

Lemma split_sentences_pieces (s : str) :
  forall after_stop skipping,
  exists p ps, split_sentences_from after_stop skipping s = p :: ps /\
               (exists t, (if skipping then lstrip s else s) = p ++ t) /\
               Forall (fun x => infix x s) ps.
Proof.
  induction s as [|c s IH]; intros after_stop skipping; simpl.
  - exists [], []. repeat split; [|constructor].
    exists []. now destruct skipping.
  - destruct (is_space c) eqn:Hsp.
    + destruct skipping.
      * destruct (IH false true) as (p & ps & Heq & Hp & Hps).
        exists p, ps. repeat split; auto.
        eapply Forall_impl; [|exact Hps]. intros x. apply infix_cons.
      * destruct (after_stop && upper_follows (c :: s))%bool.
        -- destruct (IH false true) as (p & ps & Heq & [t Ht] & Hps).
           exists [], (p :: ps). rewrite Heq. repeat split; [eexists; reflexivity|].
           constructor.
           ++ apply infix_cons.
              destruct (lstrip_suffix s) as [pre Hpre].
              rewrite Hpre, Ht. exists pre, t. reflexivity.
           ++ eapply Forall_impl; [|exact Hps]. intros x. apply infix_cons.
        -- destruct (IH false false) as (p & ps & Heq & [t Ht] & Hps).
           rewrite Heq. exists (c :: p), ps. repeat split.
           ++ exists t. simpl. now f_equal.
           ++ eapply Forall_impl; [|exact Hps]. intros x. apply infix_cons.
    + destruct (IH (is_stop c) false) as (p & ps & Heq & [t Ht] & Hps).
      rewrite Heq. exists (c :: p), ps. repeat split.
      * exists t. destruct skipping; simpl; now f_equal.
      * eapply Forall_impl; [|exact Hps]. intros x. apply infix_cons.
Qed.

Lemma split_sentences_infix (s x : str) :
  In x (split_sentences s) -> infix x s.
Proof.
  unfold split_sentences.
  destruct (split_sentences_pieces s false false) as (p & ps & -> & [t Ht] & Hps).
  intros [<- | Hin].
  - rewrite Ht. apply infix_prefix.
  - rewrite Forall_forall in Hps. auto.
Qed.

Lemma marker_chars :
  ~ In NL PREMIUM_CHART /\ PREMIUM_CHART <> [] /\
  ~ In NL PREMIUM_TABLE /\ PREMIUM_TABLE <> [].
Proof.
  repeat split; try discriminate;
    intros H; simpl in H; repeat (destruct H as [H | H]; [discriminate|]);
    exact H.
Qed.

Section Clauses.

Variable encode : str -> list N.
Variable target_size : Z.
Variable is_decimal : char -> bool.

(** Every clause occurs in the text of its section. *)
Lemma identify_clauses_infix (text0 c : str) :
  In c (identify_clauses encode target_size is_decimal text0) -> infix c text0.
Proof.
  unfold identify_clauses.
  destruct (contains PREMIUM_CHART text0 || contains PREMIUM_TABLE text0)%bool.
  - rewrite in_map_iff. intros (p & <- & Hin).
    apply filter_In in Hin. destruct Hin as [Hin _].
    eapply infix_trans; [apply strip_infix | eapply split_before_infix; eauto].
  - rewrite in_flat_map. intros (p & Hin & Hc).
    apply split_before_infix in Hin.
    assert (Hs : infix c (strip p)).
    { destruct (negb (truthy (strip p))); [destruct Hc|].
      destruct (_ >? _)%Z.
      - now apply split_sentences_infix.
      - destruct Hc as [<- | []]. apply infix_refl. }
    eapply infix_trans; [exact Hs|].
    eapply infix_trans; [apply strip_infix | exact Hin].
Qed.

End Clauses.

(** Reading back the digits of a number. *)
Lemma int_of_digits_acc (u : Decimal.uint) (acc : nat) :
  fold_left (fun a c => 10 * a + digit_value c) (digits u) acc =
  Nat.of_uint_acc u acc.
Proof.
  revert acc. induction u; intros acc; simpl digits; simpl fold_left;
    simpl Nat.of_uint_acc; try reflexivity;
    rewrite IHu, Nat.tail_mul_spec; f_equal;
    match goal with
    | |- context [digit_value ?c] =>
        let v := eval vm_compute in (digit_value c) in
        change (digit_value c) with v
    end; lia.
Qed.

Lemma int_of_digits_str_of_nat (n : nat) : int_of_digits (str_of_nat n) = n.
Proof.
  unfold int_of_digits, str_of_nat. rewrite int_of_digits_acc.
  apply DecimalNat.Unsigned.of_to.
Qed.

Lemma int_of_digits_zeros (k : nat) (s : str) :
  int_of_digits (repeat 48%N k ++ s) = int_of_digits s.
Proof.
  unfold int_of_digits. rewrite fold_left_app.
  replace (fold_left _ (repeat 48%N k) 0) with 0; [reflexivity|].
  induction k; simpl; auto.
Qed.

Lemma int_of_digits_format (n : nat) : int_of_digits (format_04d n) = n.
Proof.
  unfold format_04d. rewrite int_of_digits_zeros.
  apply int_of_digits_str_of_nat.
Qed.

Lemma format_04d_width (n : nat) : 4 <= len (format_04d n).
Proof.
  unfold format_04d. cbv zeta. rewrite length_app, repeat_length.
  unfold char. lia.
Qed.

End StrFacts.

(* ===================================================================== *)
(** ** [create_chunks] and [filter_premium_tables] *)
(* ===================================================================== *)

Module ChunkerTheorems.
Import PyStr Chunker Props.

Section Chunks.

Variable encode : str -> list N.
Variables target_size overlap : Z.
Variable is_decimal : char -> bool.

Local Abbreviation count_tokens := (Chunker.count_tokens encode).
Local Abbreviation make_chunk := (Chunker.make_chunk encode).
Local Abbreviation identify_clauses :=
  (Chunker.identify_clauses encode target_size is_decimal).
Local Abbreviation chunk_section :=
  (Chunker.chunk_section encode target_size overlap is_decimal).
Local Abbreviation create_chunks :=
  (Chunker.create_chunks encode target_size overlap is_decimal).
Local Abbreviation chunks_of := (Props.chunks_of encode).
Local Abbreviation from_section :=
  (Props.from_section encode target_size is_decimal).

Lemma chunks_of_ids (n : nat) (name : str) (segs : list segment) :
  map chunk_id (chunks_of n name segs) = map id_of (seq n (len segs)).
Proof.
  revert n. induction segs as [|sg segs IH]; intros n; simpl; [reflexivity|].
  now rewrite IH.
Qed.

Lemma chunks_of_ranges (n : nat) (name : str) (segs : list segment) :
  map clause_index (chunks_of n name segs) =
  map render_range (map seg_range segs).
Proof.
  revert n. induction segs as [|sg segs IH]; intros n; simpl; [reflexivity|].
  now rewrite IH.
Qed.

Lemma chunks_of_texts (n : nat) (name : str) (segs : list segment) :
  map text (chunks_of n name segs) = map (fun sg => join [NL] (snd sg)) segs.
Proof.
  revert n. induction segs as [|sg segs IH]; intros n; simpl; [reflexivity|].
  now rewrite IH.
Qed.

Lemma chunks_of_In (n : nat) (name : str) (segs : list segment) (c : Chunk) :
  In c (chunks_of n name segs) ->
  exists m sg, In sg segs /\
    c = make_chunk m name (snd sg) (fst (seg_range sg)) (snd (seg_range sg)).
Proof.
  revert n. induction segs as [|sg segs IH]; intros n; simpl; [tauto|].
  intros [<- | Hin].
  - exists n, sg. auto.
  - destruct (IH _ Hin) as (m & sg' & Hsg & Hc). exists m, sg'. auto.
Qed.

(** What one iteration of the loop over the sections adds. *)
Lemma chunk_section_segments (acc : list Chunk * nat) (sec : SectionData) :
  exists segs : list segment,
    chunk_section acc sec =
    (fst acc ++ chunks_of (snd acc) (section_name sec) segs,
     snd acc + len segs) /\
    Forall (fun sg => snd sg <> [] /\
                      run_at (identify_clauses (section_text sec))
                             (fst sg) (snd sg)) segs /\
    (identify_clauses (section_text sec) = [] -> segs = []) /\
    (identify_clauses (section_text sec) <> [] ->
     segs <> [] /\
     chained (overlap >? 0)%Z true 0 (map seg_range segs)
             (if (overlap >? 0)%Z
              then Z.of_nat (len (identify_clauses (section_text sec))) - 1
              else Z.of_nat (len (identify_clauses (section_text sec))))).
Proof.
  unfold Chunker.chunk_section.
  destruct (PackingFacts.pack_clauses_segments encode target_size overlap acc
              (section_name sec) (identify_clauses (section_text sec)))
    as (segs & Heq & Hruns & Hnil & Hch).
  exists segs. split; [exact Heq|]. split; [|split; assumption].
  destruct (identify_clauses (section_text sec)) as [|c0 cl] eqn:Hcl.
  - rewrite Hnil by reflexivity. constructor.
  - assert (Hne : Forall (fun r => (fst r <= snd r)%Z) (map seg_range segs)).
    { eapply RangeFacts.chained_nonempty. apply Hch. discriminate. }
    rewrite Forall_map in Hne. rewrite Forall_forall in *.
    intros sg Hin. split; [|now apply Hruns].
    specialize (Hne sg Hin). unfold seg_range in Hne. simpl in Hne.
    destruct (snd sg); [simpl in Hne; lia | discriminate].
Qed.

(** What the whole loop adds to its accumulator. *)
Lemma fold_sections (secs : list SectionData) :
  forall acc : list Chunk * nat,
  exists new : list Chunk,
    fold_left chunk_section secs acc = (fst acc ++ new, snd acc + len new) /\
    Forall (fun c => exists sec, In sec secs /\ from_section sec c) new /\
    map chunk_id new = map id_of (seq (snd acc) (len new)).
Proof.
  induction secs as [|sec secs IH]; intros acc; simpl.
  - exists []. rewrite app_nil_r, Nat.add_0_r. destruct acc. auto.
  - destruct (chunk_section_segments acc sec) as (segs & Heq & Hsegs & _ & _).
    rewrite Heq.
    destruct (IH (fst acc ++ chunks_of (snd acc) (section_name sec) segs,
                  snd acc + len segs)) as (new & Hfold & Horig & Hids).
    simpl in Hfold, Hids.
    exists (chunks_of (snd acc) (section_name sec) segs ++ new).
    rewrite Hfold, length_app, PackingFacts.chunks_of_length.
    repeat split.
    + f_equal; [now rewrite app_assoc | lia].
    + apply Forall_app. split.
      * rewrite Forall_forall in *. intros c Hin.
        apply chunks_of_In in Hin. destruct Hin as (m & sg & Hsg & ->).
        exists sec. split; [now left|]. exists m, sg.
        destruct (Hsegs sg Hsg). auto.
      * eapply Forall_impl; [|exact Horig].
        intros c (sec' & Hin & Hfrom). exists sec'. split; [now right | auto].
    + rewrite map_app, seq_app, map_app, chunks_of_ids, Hids. reflexivity.
Qed.

Lemma create_chunks_origin (secs : list SectionData) (c : Chunk) :
  In c (create_chunks secs) -> exists sec, In sec secs /\ from_section sec c.
Proof.
  unfold Chunker.create_chunks.
  destruct (fold_sections secs ([], 0)) as (new & -> & Horig & _).
  simpl. rewrite Forall_forall in Horig. auto.
Qed.

(** C3.  The [token_count] of every chunk, whether closed inside a section
    or flushed at its end, is the count the tokenizer gives for the
    chunk's [text]; the post-pass leaves it so. *)
Theorem token_count_fidelity (secs : list SectionData) :
  Forall (fun c => token_count c = count_tokens (text c)) (create_chunks secs) /\
  Forall (fun c => token_count c = count_tokens (text c))
         (filter_premium_tables (create_chunks secs)).
Proof.
  assert (H : Forall (fun c => token_count c = count_tokens (text c))
                     (create_chunks secs)).
  { rewrite Forall_forall. intros c Hin.
    apply create_chunks_origin in Hin.
    destruct Hin as (sec & _ & n & sg & _ & _ & ->). reflexivity. }
  split; [exact H|].
  unfold filter_premium_tables. rewrite Forall_map.
  eapply Forall_impl; [|exact H]. intros c Hc. exact Hc.
Qed.

(** C9.  Chunk identifiers are one sequence over all sections: the chunk
    produced [n]-th, counting from 0, has the identifier [chunk_] followed
    by [n] in decimal, padded with zeros to at least four digits (exactly
    four below 10000); the post-pass keeps the identifiers. *)
Theorem chunk_ids_sequential (secs : list SectionData) :
  map chunk_id (create_chunks secs) =
  map id_of (seq 0 (len (create_chunks secs))) /\
  map chunk_id (filter_premium_tables (create_chunks secs)) =
  map chunk_id (create_chunks secs) /\
  forall n, id_of n = lit "chunk_" ++ format_04d n /\
            int_of_digits (format_04d n) = n /\
            4 <= len (format_04d n) /\
            ((Z.of_nat n < 10000)%Z -> len (format_04d n) = 4).
Proof.
  split; [|split].
  - unfold Chunker.create_chunks.
    destruct (fold_sections secs ([], 0)) as (new & -> & _ & Hids).
    exact Hids.
  - unfold filter_premium_tables. rewrite map_map. reflexivity.
  - intros n. split; [reflexivity|]. split; [apply StrFacts.int_of_digits_format|].
    split; [apply StrFacts.format_04d_width|].
    intros Hn.
    assert (Hall : forallb (fun k => len (format_04d k) =? 4)
                           (seq 0 (Z.to_nat 10000)) = true)
      by (vm_compute; reflexivity).
    rewrite forallb_forall in Hall.
    apply Nat.eqb_eq, Hall, in_seq. lia.
Qed.

(** C4.  The [clause_index] ranges of the chunks of a section cover its
    clauses: every clause lies in at least one range and in at most two,
    no range reaches outside the clause list, without overlap every clause
    lies in exactly one range, and with overlap the clauses that lie in
    two ranges are exactly those at which one chunk hands over to the
    next, each being the end of one range and the start of the following
    one. *)
Theorem clause_ranges_cover (acc : list Chunk * nat) (sec : SectionData) :
  exists segs : list segment,
    let clauses := identify_clauses (section_text sec) in
    let n := Z.of_nat (len clauses) in
    let new := chunks_of (snd acc) (section_name sec) segs in
    let rs := map seg_range segs in
    chunk_section acc sec = (fst acc ++ new, snd acc + len new) /\
    map clause_index new = map render_range rs /\
    map text new = map (fun sg => join [NL] (snd sg)) segs /\
    Forall (fun sg => run_at clauses (fst sg) (snd sg)) segs /\
    (forall j, (0 <= j < n)%Z -> 1 <= cover_count j rs <= 2) /\
    (forall j, ~ (0 <= j < n)%Z -> cover_count j rs = 0) /\
    ((overlap <= 0)%Z -> forall j, (0 <= j < n)%Z -> cover_count j rs = 1) /\
    ((0 < overlap)%Z ->
     forall j, cover_count j rs = 2 <-> In j (boundaries rs)) /\
    ((0 < overlap)%Z ->
     forall j, In j (boundaries rs) ->
               exists l1 a b l2, rs = l1 ++ (a, j) :: (j, b) :: l2).
Proof.
  destruct (chunk_section_segments acc sec) as (segs & Heq & Hsegs & Hnil & Hch).
  exists segs. cbv zeta.
  rewrite PackingFacts.chunks_of_length.
  split; [exact Heq|]. split; [apply chunks_of_ranges|].
  split; [apply chunks_of_texts|].
  split; [eapply Forall_impl; [|exact Hsegs]; intros sg [_ H]; exact H|].
  destruct (identify_clauses (section_text sec)) as [|c0 cl] eqn:Hcl.
  - rewrite Hnil by reflexivity. simpl.
    repeat split; try (intros; simpl in *; (lia || tauto || discriminate)).
  - destruct Hch as [Hne Hch]; [discriminate|].
    assert (Hrs : map seg_range segs <> [])
      by (destruct segs; [congruence | discriminate]).
    remember (Z.of_nat (len (c0 :: cl))) as n eqn:Hn. clear Hn.
    destruct (Z.gtb_spec overlap 0) as [Hov | Hov].
    + destruct (RangeFacts.chained_overlap Hch Hrs)
        as (_ & Hb & Hocc & Hcount).
      assert (Hout : forall j, ~ (0 <= j < n)%Z ->
                count_occ Z.eq_dec (boundaries (map seg_range segs)) j = 0).
      { intros j Hj. apply count_occ_not_In. intros Hin.
        apply Hb in Hin. simpl in Hin. lia. }
      split; [|split; [|split; [|split]]].
      * intros j Hj. rewrite Hcount. specialize (Hocc j).
        destruct (Z.leb_spec 0 j), (Z.leb_spec j (n - 1)); simpl; lia.
      * intros j Hj. rewrite Hcount, (Hout j Hj).
        destruct (Z.leb_spec 0 j), (Z.leb_spec j (n - 1)); simpl; lia.
      * intros Hle. lia.
      * intros _ j. rewrite Hcount. specialize (Hocc j). split.
        -- intros H2. apply (count_occ_In Z.eq_dec).
           destruct ((0 <=? j)%Z && (j <=? n - 1)%Z)%bool; lia.
        -- intros Hin. pose proof (Hb j Hin) as Hr. simpl in Hr.
           apply (count_occ_In Z.eq_dec) in Hin.
           destruct (Z.leb_spec 0 j), (Z.leb_spec j (n - 1)); simpl; lia.
      * intros _. apply (RangeFacts.boundary_adjacent Hch).
    + destruct (RangeFacts.chained_partition Hch) as [_ Hcount].
      split; [|split; [|split; [|split]]].
      * intros j Hj. rewrite Hcount.
        destruct (Z.leb_spec 0 j), (Z.ltb_spec j n); simpl; lia.
      * intros j Hj. rewrite Hcount.
        destruct (Z.leb_spec 0 j), (Z.ltb_spec j n); simpl; lia.
      * intros _ j Hj. rewrite Hcount.
        destruct (Z.leb_spec 0 j), (Z.ltb_spec j n); simpl; lia.
      * intros Hlt. lia.
      * intros Hlt. lia.
Qed.

(** What the post-pass does.  It looks at the text of each chunk, not at
    the section the chunk comes from: a chunk is flagged exactly when its
    own text contains a marker.  A section with a marker is split on the
    tabular boundaries only, every chunk packs clauses of a single
    section, and every chunk of a section without a marker is flagged
    false; nothing is said here of the chunks of a section with a marker
    whose own text holds none. *)
Lemma premium_flag_follows_chunk_text (secs : list SectionData) (c : Chunk) :
  In c (filter_premium_tables (create_chunks secs)) ->
  is_premium_table c =
  Some (contains PREMIUM_TABLE (text c) || contains PREMIUM_CHART (text c)) /\
  exists (sec : SectionData) (buf : list str) (a : nat),
    In sec secs /\
    section c = section_name sec /\
    buf <> [] /\
    text c = join [NL] buf /\
    run_at (identify_clauses (section_text sec)) a buf /\
    (contains PREMIUM_CHART (section_text sec)
     || contains PREMIUM_TABLE (section_text sec) = true ->
     identify_clauses (section_text sec) =
     map strip (filter (fun p => truthy (strip p))
                       (split_before table_boundary (section_text sec)))) /\
    (contains PREMIUM_CHART (section_text sec)
     || contains PREMIUM_TABLE (section_text sec) = false ->
     is_premium_table c = Some false).
Proof.
  unfold filter_premium_tables. rewrite in_map_iff.
  intros (c0 & <- & Hin). split; [reflexivity|].
  apply create_chunks_origin in Hin.
  destruct Hin as (sec & Hsec & n & [a buf] & Hbuf & Hrun & ->).
  simpl in Hbuf, Hrun.
  exists sec, buf, a. repeat split; auto.
  - intros Hm. unfold Chunker.identify_clauses. rewrite Hm. reflexivity.
  - intros Hm. apply orb_false_iff in Hm. destruct Hm as [Hchart Htable].
    simpl. f_equal. apply orb_false_iff.
    destruct StrFacts.marker_chars as (Hc1 & Hc2 & Ht1 & Ht2).
    assert (Hclause : forall x, In x buf -> infix x (section_text sec)).
    { intros x Hx. destruct Hrun as (pre & post & Heq & _).
      apply (StrFacts.identify_clauses_infix encode target_size is_decimal).
      rewrite Heq. apply in_or_app. right. apply in_or_app. now left. }
    split.
    + destruct (contains PREMIUM_TABLE (join [NL] buf)) eqn:E; [|reflexivity].
      apply StrFacts.contains_infix, StrFacts.infix_join in E; auto.
      destruct E as (x & Hx & Hi).
      apply StrFacts.contains_false_infix in Htable. exfalso. apply Htable.
      eapply StrFacts.infix_trans; [exact Hi | auto].
    + destruct (contains PREMIUM_CHART (join [NL] buf)) eqn:E; [|reflexivity].
      apply StrFacts.contains_infix, StrFacts.infix_join in E; auto.
      destruct E as (x & Hx & Hi).
      apply StrFacts.contains_false_infix in Hchart. exfalso. apply Hchart.
      eapply StrFacts.infix_trans; [exact Hi | auto].
Qed.

End Chunks.

End ChunkerTheorems.

(* ===================================================================== *)
(** ** [split_into_sections] and the chunking run *)
(* ===================================================================== *)

Module SectionFacts.
Import PyStr Chunker Props.

Lemma span_app (f : char -> bool) (s : str) :
  s = fst (span f s) ++ snd (span f s).
Proof.
  induction s as [|c s IH]; simpl; [reflexivity|].
  destruct (f c); simpl; [now f_equal | reflexivity].
Qed.

(** A match is a prefix of the text it is found in, and begins like a
    marker. *)
Lemma match_marker_prefix (s m : str) :
  match_marker s = Some m ->
  (exists t, s = m ++ t) /\ m <> [] /\
  startswith (lit "### SECTION:") m = true.
Proof.
  unfold match_marker.
  destruct (startswith (lit "### SECTION: ") s) eqn:Hp; [|discriminate].
  apply StrFacts.startswith_prefix in Hp. destruct Hp as [t Ht].
  assert (Hskip : skipn 13 s = t) by (rewrite Ht; reflexivity).
  rewrite Hskip.
  pose proof (span_app (fun c => negb (c =? HASH)%N) t) as Hspan.
  destruct (span (fun c => negb (c =? HASH)%N) t) as [x rest].
  cbn [fst snd] in *.
  destruct x as [|x0 x]; [discriminate|].
  destruct (startswith (lit "###") rest) eqn:Hr; [|discriminate].
  apply StrFacts.startswith_prefix in Hr. destruct Hr as [u Hu].
  intros H.
  assert (Hmm : firstn (13 + len (x0 :: x) + 3) s = m) by congruence.
  clear H. subst m.
  assert (Hs : s = (lit "### SECTION: " ++ (x0 :: x) ++ lit "###") ++ u).
  { rewrite Ht, Hspan, Hu. now rewrite <- !app_assoc. }
  assert (Hl : len (lit "### SECTION: " ++ (x0 :: x) ++ lit "###")
               = 13 + len (x0 :: x) + 3).
  { rewrite !length_app. change (len (lit "### SECTION: ")) with 13.
    change (len (lit "###")) with 3. lia. }
  assert (Hm : firstn (13 + len (x0 :: x) + 3) s =
               lit "### SECTION: " ++ (x0 :: x) ++ lit "###").
  { rewrite Hs at 1. rewrite <- Hl. rewrite firstn_app, Nat.sub_diag.
    rewrite firstn_all. cbn [firstn]. now rewrite app_nil_r. }
  rewrite Hm.
  split; [exists u; exact Hs|]. split; [discriminate | reflexivity].
Qed.

(** Splitting at the markers loses nothing: the pieces, markers included,
    make up the text again. *)
Lemma split_markers_concat (s : str) :
  forall skip,
  fst (split_markers skip s)
  ++ List.concat (map (fun mt => fst mt ++ snd mt) (snd (split_markers skip s)))
  = skipn skip s.
Proof.
  induction s as [|c s IH]; intros skip.
  - destruct skip; reflexivity.
  - destruct skip as [|k]; simpl.
    + destruct (match_marker (c :: s)) as [m|] eqn:Hm.
      * apply match_marker_prefix in Hm. destruct Hm as ([t Ht] & Hne & _).
        simpl. rewrite <- app_assoc, IH.
        destruct m as [|m0 m]; [congruence|]. simpl in Ht.
        injection Ht as -> ->. simpl. rewrite Nat.sub_0_r.
        rewrite skipn_app, skipn_all, Nat.sub_diag. reflexivity.
      * simpl. f_equal. apply (IH 0).
    + apply IH.
Qed.

Lemma re_split_sections_concat (text0 : str) :
  List.concat (re_split_sections text0) = text0.
Proof.
  pose proof (split_markers_concat text0 0) as H. simpl skipn in H.
  etransitivity; [|exact H]. clear H.
  unfold re_split_sections. cbn [List.concat]. f_equal.
  induction (snd (split_markers 0 text0)) as [|mt l IH]; simpl; [reflexivity|].
  rewrite IH. apply app_assoc.
Qed.

(** The pieces kept as markers begin like markers. *)
Lemma split_markers_heads (s : str) :
  forall skip,
  Forall (fun mt => startswith (lit "### SECTION:") (fst mt) = true)
         (snd (split_markers skip s)).
Proof.
  induction s as [|c s IH]; intros skip; simpl; [constructor|].
  destruct skip as [|k]; [|apply IH].
  destruct (match_marker (c :: s)) as [m|] eqn:Hm; simpl; [|apply IH].
  constructor; [|apply IH].
  apply match_marker_prefix in Hm. tauto.
Qed.

Lemma concat_filter_truthy (l : list str) :
  List.concat (filter truthy l) = List.concat l.
Proof.
  induction l as [|x l IH]; simpl; [reflexivity|].
  destruct x; simpl; [exact IH | now rewrite IH].
Qed.

Lemma save_section_texts (st : split_state) :
  map section_text (save_section st) =
  map section_text (sections st) ++ filter truthy [strip (current_text st)].
Proof.
  unfold save_section. simpl.
  destruct (truthy (strip (current_text st))).
  - now rewrite map_app.
  - now rewrite app_nil_r.
Qed.

Lemma split_step_text (st : split_state) (part : str) :
  startswith (lit "### SECTION:") part = false ->
  split_step st part =
  inr {| sections := sections st;
         current_section := current_section st;
         current_text := current_text st ++ part |}.
Proof. intros H. unfold split_step. rewrite H. reflexivity. Qed.

Lemma split_step_marker (st : split_state) (part : str) :
  startswith (lit "### SECTION:") part = true ->
  split_step st part =
  match search_section_name part with
  | None => inl AttributeError
  | Some name =>
      inr {| sections := save_section st;
             current_section := name;
             current_text := [] |}
  end.
Proof. intros H. unfold split_step. rewrite H. reflexivity. Qed.

(** The loop over the pieces that follow the first one. *)
Lemma split_loop_pairs (ms : list (str * str)) :
  forall st st' : split_state,
  Forall (fun mt => startswith (lit "### SECTION:") (fst mt) = true) ms ->
  Forall (fun mt => startswith (lit "### SECTION:") (snd mt) = false) ms ->
  split_loop st (flat_map (fun mt => [fst mt; snd mt]) ms) = inr st' ->
  map section_text (save_section st') =
  map section_text (sections st)
  ++ filter truthy (map strip (current_text st :: map snd ms)).
Proof.
  induction ms as [|[m t] ms IH]; intros st st' Hm Ht Hloop.
  - cbn [flat_map split_loop] in Hloop.
    assert (st = st') by congruence. subst st'. apply save_section_texts.
  - inversion Hm as [|? ? Hm1 Hm2]; subst. inversion Ht as [|? ? Ht1 Ht2]; subst.
    cbn [fst snd] in Hm1, Ht1.
    cbn [flat_map app fst snd split_loop] in Hloop.
    rewrite (split_step_marker st m Hm1) in Hloop.
    destruct (search_section_name m) as [name|]; [|discriminate].
    rewrite (split_step_text _ t Ht1) in Hloop.
    apply IH in Hloop; auto.
    cbn [sections current_text app] in Hloop.
    rewrite Hloop, save_section_texts.
    cbn [map filter]. rewrite <- !app_assoc. f_equal.
    destruct (truthy (strip (current_text st))); reflexivity.
Qed.

(** C6 (as amended).  Splitting at the markers loses and duplicates
    nothing, and, when the splitting succeeds and no piece of text between
    two markers itself begins with [### SECTION:], the texts of the
    sections are, in order, the pieces between the markers stripped of
    leading and trailing whitespace, the empty ones left out; so their
    concatenation is the concatenation of the stripped pieces. *)
Theorem section_texts_are_stripped_pieces (text0 : str) (secs : list SectionData) :
  split_into_sections text0 = inr secs ->
  Forall (fun t => startswith (lit "### SECTION:") t = false)
         (between_markers text0) ->
  List.concat (re_split_sections text0) = text0 /\
  map section_text secs = filter truthy (map strip (between_markers text0)) /\
  List.concat (map section_text secs) =
  List.concat (map strip (between_markers text0)).
Proof.
  intros Hsplit Hpieces.
  split; [apply re_split_sections_concat|].
  assert (Htexts : map section_text secs =
                   filter truthy (map strip (between_markers text0))).
  { unfold split_into_sections, re_split_sections in Hsplit.
    unfold between_markers in *.
    destruct (split_markers 0 text0) as [t0 ms] eqn:Hsm.
    cbn [fst snd] in *.
    inversion Hpieces as [|? ? Ht0 Hrest]; subst.
    cbn [split_loop] in Hsplit.
    rewrite (split_step_text split_init t0 Ht0) in Hsplit.
    match type of Hsplit with
    | match split_loop ?st ?l with _ => _ end = _ =>
        destruct (split_loop st l) as [e | st'] eqn:Hloop; [discriminate|]
    end.
    assert (Hsecs : save_section st' = secs) by congruence. subst secs.
    apply split_loop_pairs in Hloop.
    - exact Hloop.
    - pose proof (split_markers_heads text0 0) as Hh. now rewrite Hsm in Hh.
    - now rewrite Forall_map in Hrest. }
  split; [exact Htexts|].
  rewrite Htexts. apply concat_filter_truthy.
Qed.

(** C8.  On an existing but empty input artifact the run writes the empty
    chunk list and then raises [ZeroDivisionError] while printing the
    statistics; on an input with a marker that lacks the blank before its
    closing [###] it raises [AttributeError]; on a missing input it
    raises [FileNotFoundError]. *)
Theorem chunk_raises_on_existing_input
  (encode : str -> list N) (target_size overlap : Z)
  (is_decimal : char -> bool) :
  chunk encode target_size overlap is_decimal (Some []) =
  (Some [], inl ZeroDivisionError) /\
  chunk encode target_size overlap is_decimal (Some (lit "### SECTION: A###")) =
  (None, inl AttributeError) /\
  chunk encode target_size overlap is_decimal None =
  (None, inl FileNotFoundError).
Proof. repeat split; reflexivity. Qed.

End SectionFacts.

(* ===================================================================== *)
(** ** [generate_all_embeddings] *)
(* ===================================================================== *)

Module EmbedFacts.
Import PyStr Props.
Import EmbedGenerator.

Section Attacher.

Variable F : Type.
Variable provider : Type.
Variable embed_content : provider -> str -> option (list F) * provider.
Variable skip_premium_tables : bool.

Local Abbreviation embed_step :=
  (EmbedGenerator.embed_step embed_content skip_premium_tables).
Local Abbreviation generate_all_embeddings :=
  (EmbedGenerator.generate_all_embeddings embed_content skip_premium_tables).
Local Abbreviation responses := (EmbedGenerator.responses embed_content).

(** The loop keeps what it has and adds the records of the answers. *)
Lemma fold_embed_records (cs : list Chunker.Chunk) :
  forall acc : list (EmbeddingRecord F) * provider,
  (forall c, In c cs -> skip_premium_tables && get_premium c = false) ->
  fst (fold_left embed_step cs acc) =
  fst acc ++ records_of cs (responses (snd acc) (map Chunker.text cs)).
Proof.
  induction cs as [|c cs IH]; intros acc Hskip; simpl.
  - now rewrite app_nil_r.
  - rewrite IH by (intros c' Hc'; apply Hskip; now right).
    unfold EmbedGenerator.embed_step.
    rewrite (Hskip c) by now left.
    unfold generate_embedding.
    destruct (embed_content (snd acc) (Chunker.text c)) as [[[|x v]|] p'];
      simpl; try reflexivity.
    now rewrite <- app_assoc.
Qed.

Lemma responses_length (texts : list str) :
  forall p, len (responses p texts) = len texts.
Proof. induction texts; intros p; simpl; auto. Qed.

(** Every record comes from a chunk of the list and a non-empty
    vector. *)
Lemma fold_embed_sound (cs : list Chunker.Chunk) :
  forall acc : list (EmbeddingRecord F) * provider,
  Forall (fun r => exists c x v, In c cs /\ r = make_record c (x :: v)) (fst acc) ->
  Forall (fun r => exists c x v, In c cs /\ r = make_record c (x :: v))
         (fst (fold_left embed_step cs acc)).
Proof.
  assert (Hgen : forall done todo (acc : list (EmbeddingRecord F) * provider),
    cs = done ++ todo ->
    Forall (fun r => exists c x v, In c cs /\ r = make_record c (x :: v)) (fst acc) ->
    Forall (fun r => exists c x v, In c cs /\ r = make_record c (x :: v))
           (fst (fold_left embed_step todo acc))).
  { intros done todo. revert done.
    induction todo as [|c todo IH]; intros done acc Hcs Hacc; simpl; [exact Hacc|].
    apply (IH (done ++ [c])); [now rewrite <- app_assoc|].
    unfold EmbedGenerator.embed_step.
    destruct (skip_premium_tables && get_premium c); [exact Hacc|].
    destruct (generate_embedding embed_content (snd acc) (Chunker.text c))
      as [[[|x v]|] p']; simpl; try exact Hacc.
    apply Forall_app. split; [exact Hacc|].
    constructor; [|constructor]. exists c, x, v. split; [|reflexivity].
    rewrite Hcs. apply in_or_app. right. now left. }
  intros acc. apply (Hgen [] cs). reflexivity.
Qed.




End Attacher.

Section EmptyVector.

Variable F : Type.
Variable provider : Type.
Variable embed_content : provider -> str -> option (list F) * provider.
Variable skip_premium_tables : bool.

Lemma embed_step_fail_on_empty
  (acc : list (EmbeddingRecord F) * provider) (c : Chunker.Chunk) :
  embed_step (fail_on_empty embed_content) skip_premium_tables acc c =
  embed_step embed_content skip_premium_tables acc c.
Proof.
  unfold embed_step, generate_embedding, fail_on_empty.
  destruct (skip_premium_tables && get_premium c); [reflexivity|].
  destruct (embed_content (snd acc) (Chunker.text c)) as [[[|x v]|] p'];
    reflexivity.
Qed.

(** C10.  An empty vector is handled exactly like a failure of the
    provider: the run is the same as with a provider that raises wherever
    this one returns an empty vector; no record has dimension 0, the
    dimension being the length of the vector. *)
Theorem empty_vector_is_dropped (p : provider) (cs : list Chunker.Chunk) :
  generate_all_embeddings embed_content skip_premium_tables p cs =
  generate_all_embeddings (fail_on_empty embed_content) skip_premium_tables p cs
  /\
  Forall (fun r => embedding_dim r = len (embedding r) /\ embedding_dim r <> 0)
         (fst (generate_all_embeddings embed_content skip_premium_tables p cs)).
Proof.
  split.
  - unfold generate_all_embeddings. generalize (@nil (EmbeddingRecord F), p).
    induction cs as [|c cs IH]; intros acc; simpl; [reflexivity|].
    rewrite embed_step_fail_on_empty. apply IH.
  - unfold generate_all_embeddings.
    eapply Forall_impl; [|apply fold_embed_sound; constructor].
    intros r (c & x & v & _ & ->). simpl. split; [reflexivity | discriminate].
Qed.

End EmptyVector.

End EmbedFacts.

(* ===================================================================== *)
(** ** The properties on the sample inputs *)
(* ===================================================================== *)

Module OnSamples.
Import PyStr Chunker Props Samples.

Example identify_bullets :
  identify_clauses char_tokens 15 ascii_digit (section_text bullets_ABCD) =
  [lit "1. aaaa"; lit "2. bbbb"; lit "3. cccc"; lit "4. dddd"].
Proof. vm_compute. reflexivity. Qed.

Example chunks_of_bullets :
  map (fun c => (chunk_id c, text c, clause_index c))
      (create_chunks char_tokens 15 100 ascii_digit [bullets_ABCD]) =
  [ (lit "chunk_0000", lit "1. aaaa" ++ [NL] ++ lit "2. bbbb", lit "0-1");
    (lit "chunk_0001", lit "2. bbbb" ++ [NL] ++ lit "3. cccc", lit "1-2");
    (lit "chunk_0002", lit "3. cccc" ++ [NL] ++ lit "4. dddd", lit "2-3") ].
Proof. vm_compute. reflexivity. Qed.

Example sections_of_two_sections :
  split_into_sections two_sections =
  inr [ {| section_name := lit "Introduction"; section_text := lit "Intro" |};
        {| section_name := lit "KEY POINTS"; section_text := lit "Key Points" |} ].
Proof. vm_compute. reflexivity. Qed.

Example sentences_of_a_paragraph :
  split_sentences (lit "Cover starts now.  Claims are paid! see below. End") =
  [lit "Cover starts now."; lit "Claims are paid! see below."; lit "End"].
Proof. vm_compute. reflexivity. Qed.

Example pieces_of_two_sections :
  re_split_sections two_sections =
  [line "Intro" ++ line ""; lit "### SECTION: KEY POINTS ###";
   [NL] ++ lit "Key Points"].
Proof. vm_compute. reflexivity. Qed.

Example name_of_a_marker :
  search_section_name (lit "### SECTION: KEY POINTS ###") = Some (lit "KEY POINTS").
Proof. vm_compute. reflexivity. Qed.

Example chunks_of_long_table :
  map (fun c => (clause_index c, is_premium_table c))
      (filter_premium_tables
         (create_chunks char_tokens 600 100 ascii_digit [long_table_section])) =
  [ (lit "0-24", Some true); (lit "24-49", Some false);
    (lit "49-61", Some false) ].
Proof. vm_compute. reflexivity. Qed.

Example table_clauses :
  identify_clauses char_tokens 20 ascii_digit (section_text table_section) =
  [ lit "HEALTH ELITE PLUS - PREMIUM CHART"; lit "Age / SI 5L 10L";
    lit "Indiv. 21-35 8000 9000" ].
Proof. vm_compute. reflexivity. Qed.

Lemma overlap_seeds_next_buffer_witness :
  (0 <= 100)%Z /\
  exists c0 c1 rest tail,
    fst (pack_clauses char_tokens 15 100 ([], 0) (lit "KEY POINTS")
           [lit "1. aaaa"; lit "2. bbbb"; lit "3. cccc"; lit "4. dddd"])
    = [] ++ c0 :: c1 :: rest /\
    text c0 = lit "1. aaaa" ++ [NL] ++ lit "2. bbbb" /\
    text c1 = lit "2. bbbb" ++ [NL] ++ lit "3. cccc" ++ tail.
Proof.
  assert (H : (0 <= 100)%Z) by lia.
  split; [exact H|].
  apply (proj2 (@PackingFacts.overlap_seeds_next_buffer char_tokens 15 100
                  (lit "KEY POINTS")
                  {| chunks := []; counter := 0;
                     current_chunk := []; current_tokens := 0 |}
                  0 0 [] (lit "1. aaaa") (lit "2. bbbb") (lit "3. cccc")
                  (lit "4. dddd") [] ([], 0) H)).
  - discriminate.
  - vm_compute. discriminate.
  - vm_compute. reflexivity.
Defined.

(** A clause of 1800 tokens against the target of 600. *)
Lemma oversized_clause_alone_witness :
  (count_tokens char_tokens (repeat 120%N 1800) > 600)%Z /\
  exists more,
    fst (pack_clauses char_tokens 600 100 ([], 0) (lit "S")
           [repeat 120%N 1800; lit "next"])
    = [] ++ make_chunk char_tokens 0 (lit "S") [repeat 120%N 1800] 0 0 :: more /\
    text (make_chunk char_tokens 0 (lit "S") [repeat 120%N 1800] 0 0)
    = repeat 120%N 1800.
Proof.
  assert (H : (count_tokens char_tokens (repeat 120%N 1800) > 600)%Z)
    by (vm_compute; reflexivity).
  split; [exact H|].
  destruct (proj2 (proj2 (@PackingFacts.oversized_clause_alone
                            char_tokens 600 100 (lit "S") ([], 0)
                            (repeat 120%N 1800) [lit "next"] H)))
    as (more & Hfst & Htext & _).
  exists more. split; [exact Hfst | exact Htext].
Defined.

Lemma premium_flag_follows_chunk_text_witness :
  exists c,
    In c (filter_premium_tables
            (create_chunks char_tokens 20 0 ascii_digit [table_section])) /\
    text c = lit "Age / SI 5L 10L" /\
    is_premium_table c =
    Some (contains PREMIUM_TABLE (text c) || contains PREMIUM_CHART (text c)).
Proof.
  exists (mark_premium
            (make_chunk char_tokens 1 (lit "PLAN DETAILS")
                        [lit "Age / SI 5L 10L"] 1 1)).
  assert (H : In (mark_premium
                    (make_chunk char_tokens 1 (lit "PLAN DETAILS")
                                [lit "Age / SI 5L 10L"] 1 1))
                 (filter_premium_tables
                    (create_chunks char_tokens 20 0 ascii_digit [table_section])))
    by (vm_compute; right; left; reflexivity).
  split; [exact H|]. split; [reflexivity|].
  exact (proj1 (@ChunkerTheorems.premium_flag_follows_chunk_text
                  char_tokens 20 0 ascii_digit [table_section] _ H)).
Defined.

(** C5.  The rows of a long premium table escape the flag.  On the clean
    text of a policy whose section PLAN DETAILS is a premium table of
    sixty rows, with the default target 600 and overlap 100, the run ends
    normally and writes three chunks of that section, of clause ranges
    0-24, 24-49 and 49-61.  The section text holds the marker
    PREMIUM CHART and its 62 clauses are the pieces between the tabular
    boundaries, yet the post-pass flags the first chunk only: the other
    two hold rows and no marker, are flagged false, and the embedding
    run, although it skips premium tables, embeds both with priority
    high.  In a section where prose precedes the table, the prose and
    the heading of the table form one clause. *)
Theorem premium_rows_escape_the_flag :
  split_into_sections long_table_file = inr [long_table_section] /\
  contains PREMIUM_CHART (section_text long_table_section) = true /\
  identify_clauses char_tokens 600 ascii_digit (section_text long_table_section) =
  lit "HEALTH ELITE PLUS - PREMIUM CHART"
  :: repeat (lit "Age / SI 5L 10L 15L 20L") 60 ++ [lit "Indiv. 21-35 8000 9000"] /\
  (exists cs,
     chunk char_tokens 600 100 ascii_digit (Some long_table_file) = (Some cs, inr tt) /\
     map (fun c => (chunk_id c, section c, clause_index c, is_premium_table c)) cs =
     [ (lit "chunk_0000", lit "PLAN DETAILS", lit "0-24", Some true);
       (lit "chunk_0001", lit "PLAN DETAILS", lit "24-49", Some false);
       (lit "chunk_0002", lit "PLAN DETAILS", lit "49-61", Some false) ] /\
     map (fun c => contains PREMIUM_CHART (text c) || contains PREMIUM_TABLE (text c)) cs =
     [true; false; false] /\
     map (fun r => (EmbedGenerator.chunk_id r, EmbedGenerator.is_premium_table r,
                    EmbedGenerator.priority r))
         (fst (EmbedGenerator.generate_all_embeddings answering true 0 cs)) =
     [ (lit "chunk_0001", false, lit "high");
       (lit "chunk_0002", false, lit "high") ]) /\
  identify_clauses char_tokens 600 ascii_digit (section_text mixed_table_section) =
  [ line "Premiums depend on the age of the eldest member." ++
    lit "HEALTH ELITE PLUS - PREMIUM CHART";
    lit "Age / SI 5L 10L"; lit "Indiv. 21-35 8000 9000" ].
Proof.
  split; [vm_compute; reflexivity|].
  split; [vm_compute; reflexivity|].
  split; [vm_compute; reflexivity|].
  split; [|vm_compute; reflexivity].
  eexists. split; [vm_compute; reflexivity|].
  split; [vm_compute; reflexivity|].
  split; vm_compute; reflexivity.
Qed.

(** Rows without a marker are left unflagged with any tokenizer that
    gives every non-empty string at least one token, once the target is
    small enough to separate the rows from the heading. *)
Lemma premium_rows_unflagged
  (encode : str -> list N) (is_decimal : char -> bool) :
  (forall s, s <> [] -> 0 < len (encode s)) ->
  exists c,
    In c (filter_premium_tables
            (create_chunks encode 1 0 is_decimal [table_section])) /\
    text c = lit "Age / SI 5L 10L" /\
    is_premium_table c = Some false.
Proof.
  intros Htok.
  assert (Hpos : forall s, s <> [] -> (1 <= count_tokens encode s)%Z).
  { intros s Hs. specialize (Htok s Hs). unfold count_tokens. lia. }
  pose proof (Hpos (lit "HEALTH ELITE PLUS - PREMIUM CHART")) as H0.
  pose proof (Hpos (lit "Age / SI 5L 10L")) as H1.
  pose proof (Hpos (lit "Indiv. 21-35 8000 9000")) as H2.
  specialize (H0 ltac:(discriminate)).
  specialize (H1 ltac:(discriminate)).
  specialize (H2 ltac:(discriminate)).
  assert (Hcl : identify_clauses encode 1 is_decimal (section_text table_section) =
                [ lit "HEALTH ELITE PLUS - PREMIUM CHART"; lit "Age / SI 5L 10L";
                  lit "Indiv. 21-35 8000 9000" ])
    by (vm_compute; reflexivity).
  exists (mark_premium
            (make_chunk encode 1 (lit "PLAN DETAILS") [lit "Age / SI 5L 10L"] 1 1)).
  split; [|split; vm_compute; reflexivity].
  unfold create_chunks. cbn [fold_left]. unfold chunk_section. rewrite Hcl.
  unfold pack_clauses. cbn [pack_loop].
  rewrite (@PackingFacts.pack_step_keep encode 1 0 _ _ 0%Z)
    by apply andb_false_r.
  cbn [chunks counter current_chunk current_tokens fst snd app].
  match goal with
  | |- context [Chunker.pack_step _ _ _ ?nm ?st ?i (lit "Age / SI 5L 10L")] =>
      rewrite (@PackingFacts.pack_step_close encode 1 0 nm st i
                 (lit "Age / SI 5L 10L"))
        by (cbn [current_tokens current_chunk]; first [lia | discriminate])
  end.
  cbn [chunks counter current_chunk current_tokens fst snd app Z.gtb Z.compare].
  match goal with
  | |- context [Chunker.pack_step _ _ _ ?nm ?st ?i (lit "Indiv. 21-35 8000 9000")] =>
      rewrite (@PackingFacts.pack_step_close encode 1 0 nm st i
                 (lit "Indiv. 21-35 8000 9000"))
        by (cbn [current_tokens current_chunk join]; first [lia | discriminate])
  end.
  cbn [chunks counter current_chunk current_tokens fst snd app Z.gtb Z.compare].
  unfold flush. cbn [current_chunk nonempty chunks counter fst].
  unfold filter_premium_tables. cbn [map app].
  right. left. reflexivity.
Qed.

Lemma section_texts_are_stripped_pieces_witness :
  map section_text
      [ {| section_name := lit "Introduction"; section_text := lit "Intro" |};
        {| section_name := lit "KEY POINTS"; section_text := lit "Key Points" |} ]
  = filter truthy (map strip (between_markers two_sections)).
Proof.
  assert (H1 : split_into_sections two_sections =
               inr [ {| section_name := lit "Introduction";
                        section_text := lit "Intro" |};
                     {| section_name := lit "KEY POINTS";
                        section_text := lit "Key Points" |} ])
    by (vm_compute; reflexivity).
  assert (H2 : Forall (fun t => startswith (lit "### SECTION:") t = false)
                      (between_markers two_sections))
    by (vm_compute; repeat constructor).
  exact (proj1 (proj2 (@SectionFacts.section_texts_are_stripped_pieces
                         two_sections _ H1 H2))).
Defined.

(** C6, as stated, fails: the whitespace around the pieces is not kept. *)
Lemma section_concat_counterexample :
  exists secs,
    split_into_sections two_sections = inr secs /\
    List.concat (map section_text secs) <> strip_markers two_sections.
Proof.
  eexists. split; [vm_compute; reflexivity|].
  vm_compute. discriminate.
Qed.


End OnSamples.

(* ===================================================================== *)
(** ** More facts about [strip] and the splits *)
(* ===================================================================== *)

Module StripFacts.
Import PyStr Chunker Props Document.

Lemma lstrip_head (s : str) (c : char) (r : str) :
  lstrip s = c :: r -> is_space c = false.
Proof.
  induction s as [|x s IH]; simpl; [discriminate|].
  destruct (is_space x) eqn:Hx; [exact IH|].
  intros H. injection H as -> _. exact Hx.
Qed.

Lemma lstrip_fixed (c : char) (r : str) :
  is_space c = false -> lstrip (c :: r) = c :: r.
Proof. intros H. simpl. now rewrite H. Qed.

Lemma lstrip_idempotent (s : str) : lstrip (lstrip s) = lstrip s.
Proof.
  destruct (lstrip s) as [|c r] eqn:E; [reflexivity|].
  apply lstrip_fixed. eapply lstrip_head. exact E.
Qed.

Lemma lstrip_blank (s : str) : lstrip s = [] <-> blank s = true.
Proof.
  unfold blank. induction s as [|x s IH]; simpl; [tauto|].
  destruct (is_space x); simpl; [exact IH|].
  split; discriminate.
Qed.

Lemma blank_rev (s : str) : blank (rev s) = blank s.
Proof.
  unfold blank. apply eq_true_iff_eq. rewrite !forallb_forall.
  split; intros H x Hx; apply H;
    [rewrite <- in_rev; assumption | rewrite in_rev; assumption].
Qed.

(** [strip] returns the empty string exactly on whitespace-only input. *)
Lemma strip_blank (s : str) : strip s = [] <-> blank s = true.
Proof.
  unfold strip. split.
  - intros H. apply (f_equal (@rev char)) in H.
    rewrite rev_involutive in H. simpl in H.
    apply lstrip_blank in H. rewrite blank_rev in H.
    apply lstrip_blank in H. rewrite lstrip_idempotent in H.
    now apply lstrip_blank.
  - intros H. apply lstrip_blank in H. rewrite H. reflexivity.
Qed.

Lemma truthy_strip (s : str) : truthy (strip s) = negb (blank s).
Proof.
  destruct (blank s) eqn:Hb.
  - apply strip_blank in Hb. now rewrite Hb.
  - destruct (strip s) eqn:E; [|reflexivity].
    apply strip_blank in E. congruence.
Qed.

(** A stripped string neither begins nor ends with whitespace. *)
Lemma strip_ends (s : str) :
  lstrip (strip s) = strip s /\ lstrip (rev (strip s)) = rev (strip s).
Proof.
  unfold strip. rewrite rev_involutive, lstrip_idempotent. split; [|reflexivity].
  destruct (StrFacts.lstrip_suffix (rev (lstrip s))) as [w Hw].
  destruct (lstrip (rev (lstrip s))) as [|c r] eqn:Eu; [reflexivity|].
  apply (f_equal (@rev char)) in Hw.
  rewrite rev_involutive, rev_app_distr in Hw.
  destruct (rev (c :: r)) as [|y u'] eqn:Er.
  - apply (f_equal (@rev char)) in Er. rewrite rev_involutive in Er.
    discriminate.
  - apply lstrip_fixed. simpl in Hw. eapply lstrip_head. exact Hw.
Qed.

Lemma strip_idempotent (s : str) : strip (strip s) = strip s.
Proof.
  destruct (strip_ends s) as [H1 H2].
  unfold strip at 1. rewrite H1, H2. apply rev_involutive.
Qed.

(** Joining the pieces of a split with newlines gives the text back. *)
Lemma split_before_join (la : str -> bool) (s : str) :
  join [NL] (split_before la s) = s.
Proof.
  induction s as [|c s IH]; [reflexivity|].
  simpl split_before.
  destruct (StrFacts.split_before_pieces la s) as (p & ps & Heq & _).
  rewrite Heq in *.
  destruct ((c =? NL)%N && la s)%bool eqn:E.
  - apply andb_true_iff in E. destruct E as [E _]. apply N.eqb_eq in E. subst c.
    change (join [NL] ([] :: p :: ps)) with ([] ++ [NL] ++ join [NL] (p :: ps)).
    rewrite IH. reflexivity.
  - destruct ps as [|q ps]; simpl in *; now rewrite IH.
Qed.

Lemma blank_app (a b : str) : blank (a ++ b) = blank a && blank b.
Proof. unfold blank. apply forallb_app. Qed.

(** A text that is not blank has a piece that is not blank. *)
Lemma split_before_nonblank (la : str -> bool) (s : str) :
  blank s = false ->
  exists p, In p (split_before la s) /\ blank p = false.
Proof.
  intros Hs. rewrite <- (split_before_join la s) in Hs.
  induction (split_before la s) as [|p ps IH]; [discriminate|].
  destruct (blank p) eqn:Hp; [|exists p; split; [now left | assumption]].
  destruct ps as [|q ps].
  - simpl in Hs. congruence.
  - change (join [NL] (p :: q :: ps)) with (p ++ [NL] ++ join [NL] (q :: ps)) in Hs.
    rewrite !blank_app, Hp in Hs. simpl in Hs.
    destruct (IH Hs) as (x & Hx & Hbx). exists x. split; [now right | assumption].
Qed.

End StripFacts.

(* ===================================================================== *)
(** ** [split_into_sections] on well-formed documents *)
(* ===================================================================== *)

Module DocumentFacts.
Import PyStr Chunker Props Document.

Lemma startswith_app (p t : str) : startswith p (p ++ t) = true.
Proof. apply StrFacts.startswith_prefix. eauto. Qed.

Lemma startswith_shorter (a b s : str) :
  startswith (a ++ b) s = true -> startswith a s = true.
Proof.
  rewrite !StrFacts.startswith_prefix. intros [t ->].
  exists (b ++ t). now rewrite app_assoc.
Qed.

Lemma plain_head (t : str) :
  plain t -> startswith (lit "### S") t = false.
Proof.
  unfold plain. destruct t; [reflexivity|].
  cbn [contains]. intros H. apply orb_false_iff in H. tauto.
Qed.

Lemma plain_tail (c : char) (t : str) : plain (c :: t) -> plain t.
Proof.
  unfold plain. cbn [contains]. intros H. apply orb_false_iff in H. tauto.
Qed.

(** A piece in which no marker can start is not taken for a marker. *)
Lemma plain_not_marker (t : str) :
  plain t -> startswith (lit "### SECTION:") t = false.
Proof.
  intros H. apply plain_head in H.
  destruct (startswith (lit "### SECTION:") t) eqn:E; [|reflexivity].
  change (lit "### SECTION:") with (lit "### S" ++ lit "ECTION:") in E.
  apply startswith_shorter in E. congruence.
Qed.

(** Nor does a marker start inside it when a marker or nothing follows. *)
Lemma plain_then_marker (t F : str) :
  t <> [] ->
  startswith (lit "### S") t = false ->
  F = [] \/ (exists F', F = lit "### SECTION: " ++ F') ->
  startswith (lit "### S") (t ++ F) = false.
Proof.
  intros Hne Ht [-> | [F' ->]].
  - now rewrite app_nil_r.
  - destruct t as [|a [|b [|c [|d [|e t']]]]]; [congruence| | | | |];
      try (simpl in *; exact Ht);
      apply not_true_is_false; intros Hc; simpl in Hc;
      repeat (apply andb_true_iff in Hc; destruct Hc as [_ Hc]);
      discriminate.
Qed.

Lemma match_marker_needs_start (s : str) :
  startswith (lit "### S") s = false -> match_marker s = None.
Proof.
  intros H. unfold match_marker.
  destruct (startswith (lit "### SECTION: ") s) eqn:E; [|reflexivity].
  change (lit "### SECTION: ") with (lit "### S" ++ lit "ECTION: ") in E.
  apply startswith_shorter in E. congruence.
Qed.

Lemma split_markers_cons (c : char) (s : str) :
  split_markers 0 (c :: s) =
  match match_marker (c :: s) with
  | Some m =>
      ([], (m, fst (split_markers (len m - 1) s))
           :: snd (split_markers (len m - 1) s))
  | None => (c :: fst (split_markers 0 s), snd (split_markers 0 s))
  end.
Proof. reflexivity. Qed.

Lemma split_markers_plain (t F : str) :
  plain t ->
  F = [] \/ (exists F', F = lit "### SECTION: " ++ F') ->
  split_markers 0 (t ++ F) =
  (t ++ fst (split_markers 0 F), snd (split_markers 0 F)).
Proof.
  intros Hp HF. induction t as [|c t IH].
  - simpl. now destruct (split_markers 0 F).
  - change ((c :: t) ++ F) with (c :: (t ++ F)). rewrite split_markers_cons.
    rewrite (match_marker_needs_start (c :: t ++ F)).
    + rewrite IH by (eapply plain_tail; eauto). reflexivity.
    + apply (plain_then_marker (t := c :: t)); auto; [discriminate|].
      now apply plain_head.
Qed.

Lemma span_stop (f : char -> bool) (l r : str) (c : char) :
  Forall (fun x => f x = true) l -> f c = false ->
  span f (l ++ c :: r) = (l, c :: r).
Proof.
  intros Hl Hc. induction Hl as [|x l Hx Hl IH]; simpl.
  - now rewrite Hc.
  - now rewrite Hx, IH.
Qed.

(** A well-formed marker is matched whole, whatever follows it. *)
Lemma match_marker_here (n rest : str) :
  good_name n -> match_marker (marker n ++ rest) = Some (marker n).
Proof.
  intros (Hne & Hhash & _). unfold match_marker, marker.
  rewrite <- !app_assoc. rewrite startswith_app.
  change (skipn 13 (lit "### SECTION: " ++ n ++ lit " ###" ++ rest))
    with (n ++ lit " ###" ++ rest).
  assert (Hspan : span (fun c => negb (c =? HASH)%N) (n ++ lit " ###" ++ rest)
                  = (n ++ [32%N], lit "###" ++ rest)).
  { change (n ++ lit " ###" ++ rest)
      with (n ++ [32%N] ++ (HASH :: lit "##" ++ rest)).
    rewrite app_assoc. change (lit "###" ++ rest) with (HASH :: lit "##" ++ rest).
    apply span_stop; [|reflexivity].
    apply Forall_app. split; [|repeat constructor].
    rewrite Forall_forall. intros x Hx.
    destruct (N.eqb_spec x HASH) as [-> | Hd]; [contradiction | reflexivity]. }
  rewrite Hspan. cbn [fst snd].
  destruct (n ++ [32%N]) as [|y l] eqn:El;
    [destruct n; discriminate|].
  rewrite <- El. rewrite startswith_app.
  f_equal.
  set (M := lit "### SECTION: " ++ n ++ lit " ###").
  replace (lit "### SECTION: " ++ n ++ lit " ###" ++ rest) with (M ++ rest)
    by (unfold M; now rewrite <- !app_assoc).
  replace (13 + len (n ++ [32%N]) + 3) with (len M)
    by (unfold M; rewrite !length_app; simpl; lia).
  rewrite firstn_app, Nat.sub_diag, firstn_all. cbn [firstn].
  apply app_nil_r.
Qed.

Lemma split_markers_skip (a b : str) :
  split_markers (len a) (a ++ b) = split_markers 0 b.
Proof. induction a as [|c a IH]; [reflexivity | exact IH]. Qed.

Lemma split_markers_marker (n rest : str) :
  good_name n ->
  split_markers 0 (marker n ++ rest) =
  ([], (marker n, fst (split_markers 0 rest)) :: snd (split_markers 0 rest)).
Proof.
  intros Hn. pose proof (match_marker_here rest Hn) as Hm.
  assert (Htl : marker n ++ rest =
                HASH :: (lit "## SECTION: " ++ n ++ lit " ###") ++ rest).
  { unfold marker. rewrite <- !app_assoc. reflexivity. }
  assert (Hlen : len (marker n) - 1 = len (lit "## SECTION: " ++ n ++ lit " ###")).
  { unfold marker. rewrite !length_app. simpl. lia. }
  rewrite Htl in Hm. rewrite Htl.
  rewrite split_markers_cons, Hm, Hlen, split_markers_skip. reflexivity.
Qed.

Lemma document_cons (pre n b : str) (parts : list (str * str)) :
  document pre ((n, b) :: parts) = pre ++ marker n ++ document b parts.
Proof. unfold document. simpl. now rewrite <- !app_assoc. Qed.

(** The pieces of a well-formed document are its preamble, its markers
    and its parts. *)
Lemma split_markers_document (parts : list (str * str)) :
  forall pre : str,
  plain pre ->
  Forall (fun nb => good_name (fst nb) /\ plain (snd nb)) parts ->
  split_markers 0 (document pre parts) =
  (pre, map (fun nb => (marker (fst nb), snd nb)) parts).
Proof.
  induction parts as [|[n b] parts IH]; intros pre Hpre Hparts.
  - unfold document. simpl. rewrite split_markers_plain by auto.
    simpl. now rewrite app_nil_r.
  - inversion Hparts as [|? ? [Hn Hb] Hrest]; subst. simpl in Hn, Hb.
    rewrite document_cons.
    rewrite split_markers_plain; auto.
    + rewrite split_markers_marker by assumption.
      rewrite IH by assumption. simpl. now rewrite app_nil_r.
    + right. unfold marker. rewrite <- app_assoc. eauto.
Qed.

Lemma lazy_group_name (n taken rest : str) :
  ~ In HASH n -> ~ In NL n ->
  lazy_group taken (n ++ lit " ###" ++ rest) = Some (taken ++ n).
Proof.
  revert taken. induction n as [|c n IH]; intros taken Hhash Hnl.
  - simpl. now rewrite app_nil_r.
  - change ((c :: n) ++ lit " ###" ++ rest) with (c :: (n ++ lit " ###" ++ rest)).
    cbn [lazy_group].
    assert (Hs : startswith (lit " ###") (c :: n ++ lit " ###" ++ rest) = false).
    { apply not_true_is_false. intros Hc.
      apply StrFacts.startswith_prefix in Hc. destruct Hc as [t Ht].
      change (lit " ###" ++ t) with (32%N :: HASH :: HASH :: HASH :: t) in Ht.
      destruct n as [|d n].
      - change ([] ++ lit " ###" ++ rest)
          with (32%N :: HASH :: HASH :: HASH :: rest) in Ht.
        discriminate.
      - change ((d :: n) ++ lit " ###" ++ rest)
          with (d :: n ++ lit " ###" ++ rest) in Ht.
        injection Ht as _ Hd _. apply Hhash. right. left. now symmetry. }
    rewrite Hs.
    destruct (N.eqb_spec c NL) as [-> | Hc]; [exfalso; apply Hnl; now left|].
    rewrite IH.
    + now rewrite <- app_assoc.
    + intros H. apply Hhash. now right.
    + intros H. apply Hnl. now right.
Qed.

Lemma search_here (s n : str) :
  group_at s = Some n -> search_section_name s = Some n.
Proof. intros H. destruct s; cbn [search_section_name]; now rewrite H. Qed.

Lemma group_at_marker (n rest : str) :
  good_name n -> group_at (marker n ++ rest) = Some n.
Proof.
  intros (Hne & Hhash & Hnl). unfold group_at, marker.
  rewrite <- !app_assoc, startswith_app.
  change (skipn 13 (lit "### SECTION: " ++ n ++ lit " ###" ++ rest))
    with (n ++ lit " ###" ++ rest).
  destruct n as [|c n]; [congruence|].
  change ((c :: n) ++ lit " ###" ++ rest) with (c :: (n ++ lit " ###" ++ rest)).
  assert (Hc : c <> NL) by (intros ->; apply Hnl; now left).
  cbv beta iota. rewrite (proj2 (N.eqb_neq c NL) Hc).
  apply lazy_group_name.
  - intros H. apply Hhash. now right.
  - intros H. apply Hnl. now right.
Qed.

Lemma search_marker (n rest : str) :
  good_name n -> search_section_name (marker n ++ rest) = Some n.
Proof. intros Hn. apply search_here, group_at_marker, Hn. Qed.

Lemma marker_starts (n : str) :
  startswith (lit "### SECTION:") (marker n) = true.
Proof.
  apply StrFacts.startswith_prefix. exists (32%N :: n ++ lit " ###").
  reflexivity.
Qed.

Lemma save_section_kept (st : split_state) :
  save_section st = sections st ++ kept (current_section st) (current_text st).
Proof.
  unfold save_section, kept. destruct (truthy (strip (current_text st)));
    [reflexivity | now rewrite app_nil_r].
Qed.

(** The loop over the markers and parts of a well-formed document. *)
Lemma split_loop_document (parts : list (str * str)) :
  forall st : split_state,
  Forall (fun nb => good_name (fst nb) /\ plain (snd nb)) parts ->
  exists st',
    split_loop st (flat_map (fun mt => [fst mt; snd mt])
                            (map (fun nb => (marker (fst nb), snd nb)) parts))
    = inr st' /\
    save_section st' =
    save_section st ++ flat_map (fun nb => kept (fst nb) (snd nb)) parts.
Proof.
  induction parts as [|[n b] parts IH]; intros st Hparts.
  - exists st. split; [reflexivity|]. simpl. now rewrite app_nil_r.
  - inversion Hparts as [|? ? [Hn Hb] Hrest]; subst. cbn [fst snd] in Hn, Hb.
    cbn [map flat_map app fst snd split_loop].
    rewrite (SectionFacts.split_step_marker st (marker n) (marker_starts n)).
    pose proof (search_marker [] Hn) as Hs. rewrite app_nil_r in Hs.
    rewrite Hs.
    rewrite (SectionFacts.split_step_text _ b (plain_not_marker Hb)).
    match goal with
    | |- context [split_loop ?st2 _] =>
        destruct (IH st2 Hrest) as (st' & Hloop & Hsave)
    end.
    exists st'. split; [exact Hloop|].
    rewrite Hsave. rewrite (save_section_kept {| sections := _ |}).
    cbn [sections current_section current_text app flat_map fst snd].
    now rewrite <- app_assoc.
Qed.

(** X2.  A marker [### SECTION: name ###] whose name is not empty and
    holds neither [#] nor a newline passes the three tests the code
    applies to it: the split pattern matches exactly the marker, whatever
    follows it, the piece begins with [### SECTION:], and the name search
    reads the name back. *)
Theorem marker_name_round_trip (n rest : str) :
  good_name n ->
  match_marker (marker n ++ rest) = Some (marker n) /\
  startswith (lit "### SECTION:") (marker n) = true /\
  search_section_name (marker n ++ rest) = Some n.
Proof.
  intros Hn. split; [apply match_marker_here, Hn|].
  split; [apply marker_starts | apply search_marker, Hn].
Qed.

(** X1.  A document made of a preamble and of parts, each introduced by
    a well-formed marker, is split into the section [Introduction] for
    the preamble and one section per part under the marker's name, each
    text stripped, blank pieces left out; no marker may start inside the
    preamble or a part. *)
Theorem split_into_sections_document (pre : str) (parts : list (str * str)) :
  plain pre ->
  Forall (fun nb => good_name (fst nb) /\ plain (snd nb)) parts ->
  split_into_sections (document pre parts) = inr (expected_sections pre parts).
Proof.
  intros Hpre Hparts. unfold split_into_sections, re_split_sections.
  rewrite (split_markers_document Hpre Hparts). cbn [fst snd split_loop].
  rewrite (SectionFacts.split_step_text split_init pre (plain_not_marker Hpre)).
  match goal with
  | |- context [split_loop ?st1 _] =>
      destruct (split_loop_document st1 Hparts) as (st' & Hloop & Hsave)
  end.
  rewrite Hloop. f_equal. rewrite Hsave, save_section_kept. reflexivity.
Qed.

Lemma lazy_group_good (s : str) :
  forall taken n : str,
  lazy_group taken s = Some n -> ~ In NL taken ->
  ~ In NL n /\ (taken <> [] -> n <> []).
Proof.
  induction s as [|c s IH]; intros taken n; cbn [lazy_group].
  - destruct (startswith (lit " ###") []); [|discriminate].
    intros H Ht. assert (taken = n) by congruence. subst. tauto.
  - destruct (startswith (lit " ###") (c :: s)).
    + intros H Ht. assert (taken = n) by congruence. subst. tauto.
    + destruct (N.eqb_spec c NL) as [-> | Hc]; [discriminate|].
      intros H Ht. apply IH in H.
      * destruct H as [H1 H2]. split; [exact H1|].
        intros _. apply H2. destruct taken; discriminate.
      * intros Hin. apply in_app_or in Hin. destruct Hin as [Hin | [Hin | []]];
          [tauto | congruence].
Qed.

(** A name found by the search is not empty and holds no newline. *)
Lemma search_name_good (s n : str) :
  search_section_name s = Some n -> n <> [] /\ ~ In NL n.
Proof.
  assert (Hg : forall s, group_at s = Some n -> n <> [] /\ ~ In NL n).
  { intros s0. unfold group_at.
    destruct (startswith (lit "### SECTION: ") s0); [|discriminate].
    destruct (skipn 13 s0) as [|c r]; [discriminate|].
    destruct (N.eqb_spec c NL) as [-> | Hc]; [discriminate|].
    intros H. apply lazy_group_good in H.
    - destruct H as [H1 H2]. split; [apply H2; discriminate | exact H1].
    - intros [Hin | []]. congruence. }
  induction s as [|c s IH]; cbn [search_section_name].
  - destruct (group_at []) eqn:E; [|discriminate].
    intros H. apply (Hg []). congruence.
  - destruct (group_at (c :: s)) eqn:E.
    + intros H. apply (Hg (c :: s)). congruence.
    + exact IH.
Qed.

Lemma sections_invariant (text0 : str) (secs : list SectionData) :
  split_into_sections text0 = inr secs ->
  Forall (fun sec =>
            section_name sec <> [] /\ ~ In NL (section_name sec) /\
            section_text sec <> [] /\
            strip (section_text sec) = section_text sec) secs.
Proof.
  set (P := fun sec : SectionData =>
              section_name sec <> [] /\ ~ In NL (section_name sec) /\
              section_text sec <> [] /\
              strip (section_text sec) = section_text sec).
  set (Q := fun st : split_state =>
              Forall P (sections st) /\
              current_section st <> [] /\ ~ In NL (current_section st)).
  assert (Hsave : forall st, Q st -> Forall P (save_section st)).
  { intros st (Hs & Hn1 & Hn2). unfold save_section.
    destruct (truthy (strip (current_text st))) eqn:Ht; [|exact Hs].
    apply Forall_app. split; [exact Hs|]. constructor; [|constructor].
    unfold P. cbn [section_name section_text].
    repeat split; auto.
    - intros H. rewrite H in Ht. discriminate.
    - apply StripFacts.strip_idempotent. }
  assert (Hstep : forall st part st',
             Q st -> split_step st part = inr st' -> Q st').
  { intros st part st' HQ. unfold split_step.
    destruct (startswith (lit "### SECTION:") part).
    - destruct (search_section_name part) as [name|] eqn:En; [|discriminate].
      intros H. assert (Hst : st' = {| sections := save_section st;
                                       current_section := name;
                                       current_text := [] |}) by congruence.
      subst st'. apply search_name_good in En.
      split; [apply Hsave, HQ | exact En].
    - intros H. assert (Hst : st' = {| sections := sections st;
                                       current_section := current_section st;
                                       current_text := current_text st ++ part |})
        by congruence.
      subst st'. exact HQ. }
  assert (Hloop : forall parts st st',
             Q st -> split_loop st parts = inr st' -> Q st').
  { induction parts as [|part parts IH]; intros st st' HQ; cbn [split_loop].
    - intros H. assert (st = st') by congruence. now subst.
    - destruct (split_step st part) as [e | st1] eqn:E; [discriminate|].
      apply IH. eapply Hstep; eauto. }
  unfold split_into_sections.
  destruct (split_loop split_init (re_split_sections text0)) as [e | st'] eqn:E;
    [discriminate|].
  intros H. assert (Hs : save_section st' = secs) by congruence. subst secs.
  apply Hsave. eapply Hloop; [|exact E].
  split; [constructor|]. split; [discriminate|].
  intros Hin. vm_compute in Hin.
  repeat (destruct Hin as [Hin | Hin]; [discriminate|]). exact Hin.
Qed.

(** X3.  Every section returned by [split_into_sections] has a name
    that is not empty and holds no newline, and a text that is not blank
    and neither begins nor ends with whitespace: stripping it again
    changes nothing. *)
Theorem sections_are_stripped (text0 : str) (secs : list SectionData) :
  split_into_sections text0 = inr secs ->
  Forall (fun sec =>
            section_name sec <> [] /\ ~ In NL (section_name sec) /\
            blank (section_text sec) = false /\
            strip (section_text sec) = section_text sec /\
            lstrip (section_text sec) = section_text sec /\
            lstrip (rev (section_text sec)) = rev (section_text sec)) secs.
Proof.
  intros H. apply sections_invariant in H.
  eapply Forall_impl; [|exact H].
  intros sec (H1 & H2 & H3 & H4).
  repeat split; auto.
  - destruct (blank (section_text sec)) eqn:Hb; [|reflexivity].
    apply StripFacts.strip_blank in Hb. congruence.
  - rewrite <- H4. apply StripFacts.strip_ends.
  - rewrite <- H4. apply StripFacts.strip_ends.
Qed.

End DocumentFacts.

(* ===================================================================== *)
(** ** The clauses of a section *)
(* ===================================================================== *)

Module ClauseFacts.
Import PyStr Chunker Props Document.

Lemma split_sentences_shape (s : str) :
  forall after_stop skipping,
  Forall (fun p : str => p <> []) (tl (split_sentences_from after_stop skipping s)) /\
  (skipping = true -> lstrip s <> [] ->
   hd [] (split_sentences_from after_stop skipping s) <> []) /\
  (skipping = false -> after_stop = false -> s <> [] ->
   hd [] (split_sentences_from after_stop skipping s) <> []).
Proof.
  induction s as [|c s IH]; intros after_stop skipping.
  - simpl. repeat split; auto; congruence.
  - cbn [split_sentences_from lstrip].
    destruct (is_space c) eqn:Hsp.
    + destruct skipping.
      * destruct (IH false true) as (Ht & Hh & _).
        repeat split; auto; discriminate.
      * destruct (after_stop && upper_follows (c :: s))%bool eqn:E.
        -- destruct (IH false true) as (Ht & Hh & _).
           destruct (StrFacts.split_sentences_pieces s false true)
             as (p & ps & Heq & _).
           rewrite Heq in *. cbn [tl hd] in *.
           apply andb_true_iff in E. destruct E as [Ea Eu].
           repeat split; try discriminate; try congruence.
           constructor; [|exact Ht]. apply Hh; [reflexivity|].
           unfold upper_follows in Eu. cbn [lstrip] in Eu. rewrite Hsp in Eu.
           destruct (lstrip s); [discriminate | discriminate].
        -- destruct (IH false false) as (Ht & _ & _).
           destruct (StrFacts.split_sentences_pieces s false false)
             as (p & ps & Heq & _).
           rewrite Heq in *. cbn [tl hd] in *.
           repeat split; auto; discriminate.
    + destruct (IH (is_stop c) false) as (Ht & _ & _).
      destruct (StrFacts.split_sentences_pieces s (is_stop c) false)
        as (p & ps & Heq & _).
      rewrite Heq in *. cbn [tl hd] in *.
      repeat split; auto; discriminate.
Qed.

(** The sentences of a non-empty text are non-empty. *)
Lemma split_sentences_nonempty (s : str) :
  s <> [] -> Forall (fun p : str => p <> []) (split_sentences s).
Proof.
  intros Hs. unfold split_sentences.
  destruct (split_sentences_shape s false false) as (Ht & _ & Hh).
  destruct (StrFacts.split_sentences_pieces s false false) as (p & ps & Heq & _).
  rewrite Heq in *. cbn [tl hd] in *. constructor; auto.
Qed.

Lemma truthy_nonempty (s : str) : truthy s = true <-> s <> [].
Proof. destruct s; simpl; split; congruence. Qed.

Lemma blank_infix (a s : str) : infix a s -> blank s = true -> blank a = true.
Proof.
  intros (l1 & l2 & ->). rewrite !StripFacts.blank_app.
  intros H. apply andb_true_iff in H. destruct H as [_ H].
  apply andb_true_iff in H. tauto.
Qed.

Lemma blank_no_marker (m s : str) :
  blank m = false -> blank s = true -> contains m s = false.
Proof.
  intros Hm Hs. destruct (contains m s) eqn:E; [|reflexivity].
  apply StrFacts.contains_infix in E. apply (blank_infix E) in Hs.
  congruence.
Qed.

Lemma flat_map_all_nil {A B : Type} (f : A -> list B) (l : list A) :
  (forall x, In x l -> f x = []) -> flat_map f l = [].
Proof.
  induction l as [|x l IH]; intros H; simpl; [reflexivity|].
  rewrite (H x) by now left. apply IH. intros y Hy. apply H. now right.
Qed.

Section Clauses.

Variable encode : str -> list N.
Variable target_size : Z.
Variable is_decimal : char -> bool.

Local Abbreviation identify_clauses :=
  (Chunker.identify_clauses encode target_size is_decimal).

Lemma identify_clauses_nonempty (text0 : str) :
  Forall (fun c : str => c <> []) (identify_clauses text0).
Proof.
  unfold Chunker.identify_clauses.
  destruct (contains PREMIUM_CHART text0 || contains PREMIUM_TABLE text0)%bool.
  - rewrite Forall_map, Forall_forall. intros p Hp.
    apply filter_In in Hp. destruct Hp as [_ Hp]. now apply truthy_nonempty.
  - rewrite Forall_forall. intros c Hc. apply in_flat_map in Hc.
    destruct Hc as (p & _ & Hc). cbv zeta in Hc.
    destruct (truthy (strip p)) eqn:Ht; [|destruct Hc].
    apply truthy_nonempty in Ht. simpl negb in Hc. cbv iota in Hc.
    destruct (count_tokens encode (strip p) >? target_size)%Z.
    + pose proof (split_sentences_nonempty Ht) as Hall.
      rewrite Forall_forall in Hall. now apply Hall.
    + destruct Hc as [<- | []]. exact Ht.
Qed.

(** There is no clause exactly when the text is blank. *)
Lemma identify_clauses_blank (text0 : str) :
  identify_clauses text0 = [] <-> blank text0 = true.
Proof.
  - split.
    + intros Hnil. destruct (blank text0) eqn:Hb; [reflexivity|]. exfalso.
      unfold Chunker.identify_clauses in Hnil.
      destruct (contains PREMIUM_CHART text0 || contains PREMIUM_TABLE text0)%bool.
      * destruct (StripFacts.split_before_nonblank table_boundary text0 Hb)
          as (p & Hp & Hbp).
        assert (Hin : In (strip p)
                         (map strip (filter (fun p => truthy (strip p))
                                            (split_before table_boundary text0)))).
        { apply in_map, filter_In. split; [exact Hp|].
          rewrite StripFacts.truthy_strip, Hbp. reflexivity. }
        rewrite Hnil in Hin. destruct Hin.
      * destruct (StripFacts.split_before_nonblank
                    (item_boundary is_decimal) text0 Hb) as (p & Hp & Hbp).
        assert (Ht : truthy (strip p) = true)
          by (rewrite StripFacts.truthy_strip, Hbp; reflexivity).
        assert (Hin : exists c,
                   In c (if negb (truthy (strip p)) then []
                         else if (count_tokens encode (strip p) >? target_size)%Z
                              then split_sentences (strip p) else [strip p])).
        { rewrite Ht. simpl negb. cbv iota.
          destruct (count_tokens encode (strip p) >? target_size)%Z.
          - unfold split_sentences.
            destruct (StrFacts.split_sentences_pieces (strip p) false false)
              as (q & qs & Heq & _).
            rewrite Heq. exists q. now left.
          - exists (strip p). now left. }
        destruct Hin as [c Hc].
        assert (Hcl : In c [])
          by (rewrite <- Hnil; apply in_flat_map; exists p; split; assumption).
        destruct Hcl.
    + intros Hb. unfold Chunker.identify_clauses.
      rewrite (blank_no_marker PREMIUM_CHART text0), (blank_no_marker PREMIUM_TABLE text0)
        by (auto; reflexivity).
      simpl orb. cbv iota.
      apply flat_map_all_nil. intros p Hp.
      apply StrFacts.split_before_infix in Hp.
      apply (blank_infix Hp) in Hb. apply StripFacts.strip_blank in Hb.
      cbv zeta. rewrite Hb. reflexivity.
Qed.

(** X4.  Every clause that [identify_clauses] returns is a non-empty run
    of characters of the section text; and it returns no clause exactly
    when the text is blank. *)
Theorem clauses_are_pieces_of_text (text0 : str) :
  Forall (fun c : str => c <> [] /\ infix c text0) (identify_clauses text0) /\
  (identify_clauses text0 = [] <-> blank text0 = true).
Proof.
  split; [|apply identify_clauses_blank].
  rewrite Forall_forall. intros c Hc. split.
  - pose proof (identify_clauses_nonempty text0) as H.
    rewrite Forall_forall in H. now apply H.
  - eapply StrFacts.identify_clauses_infix. exact Hc.
Qed.

End Clauses.

End ClauseFacts.

(* ===================================================================== *)
(** ** The chunk list and the chunking run *)
(* ===================================================================== *)

Module ChunkListFacts.
Import PyStr Chunker Props Document.

Lemma join_nonempty (sep x : str) (r : list str) :
  x <> [] -> join sep (x :: r) <> [].
Proof.
  intros Hx. destruct r; simpl; [exact Hx|].
  destruct x; [congruence | discriminate].
Qed.

Section Chunks.

Variable encode : str -> list N.
Variables target_size overlap : Z.
Variable is_decimal : char -> bool.

Local Abbreviation identify_clauses :=
  (Chunker.identify_clauses encode target_size is_decimal).
Local Abbreviation chunk_section :=
  (Chunker.chunk_section encode target_size overlap is_decimal).
Local Abbreviation create_chunks :=
  (Chunker.create_chunks encode target_size overlap is_decimal).

(** A section adds no chunk when its text is blank and at least one
    otherwise. *)
Lemma fold_sections_count (secs : list SectionData) :
  forall acc : list Chunk * nat,
  len (fst acc) + len (filter (fun sec => negb (blank (section_text sec))) secs)
  <= len (fst (fold_left chunk_section secs acc)) /\
  (Forall (fun sec => blank (section_text sec) = true) secs ->
   fst (fold_left chunk_section secs acc) = fst acc).
Proof.
  induction secs as [|sec secs IH]; intros acc; cbn [fold_left filter].
  - simpl. split; [lia | reflexivity].
  - destruct (@ChunkerTheorems.chunk_section_segments
                encode target_size overlap is_decimal acc sec)
      as (segs & Heq & _ & Hnil & Hne).
    destruct (IH (chunk_section acc sec)) as [Hcount Hblank].
    rewrite Heq in *. cbn [fst] in *.
    rewrite length_app, PackingFacts.chunks_of_length in Hcount.
    pose proof (ClauseFacts.identify_clauses_blank
                  encode target_size is_decimal (section_text sec)) as Hiff.
    split.
    + destruct (blank (section_text sec)) eqn:Hb; cbn [negb]; [lia|].
      cbn [length].
      assert (Hs : segs <> []).
      { apply Hne. intros Hcl. apply Hiff in Hcl. congruence. }
      destruct segs; [congruence|]. simpl in *. lia.
    + intros Hall. inversion Hall as [|? ? Hb Hrest]; subst.
      rewrite (Hblank Hrest).
      rewrite (Hnil (proj2 Hiff Hb)). simpl. apply app_nil_r.
Qed.

(** X5.  Every chunk has a non-empty text and carries the name of one of
    the sections; a section list yields no chunk exactly when every
    section text is blank, and at least one chunk per section when none
    is. *)
Theorem chunks_per_section (secs : list SectionData) :
  Forall (fun c => text c <> [] /\
                   exists sec, In sec secs /\ section c = section_name sec)
         (create_chunks secs) /\
  (create_chunks secs = [] <->
   Forall (fun sec => blank (section_text sec) = true) secs) /\
  (Forall (fun sec => blank (section_text sec) = false) secs ->
   len secs <= len (create_chunks secs)).
Proof.
  destruct (fold_sections_count secs ([], 0)) as [Hcount Hblank].
  cbn [fst length] in Hcount, Hblank.
  split; [|split].
  - rewrite Forall_forall. intros c Hc.
    apply ChunkerTheorems.create_chunks_origin in Hc.
    destruct Hc as (sec & Hsec & n & [a buf] & Hbuf & Hrun & ->).
    cbn [fst snd] in *. split; [|exists sec; split; [exact Hsec | reflexivity]].
    cbn [Chunker.make_chunk text].
    destruct buf as [|x buf]; [congruence|]. apply join_nonempty.
    pose proof (ClauseFacts.identify_clauses_nonempty
                  encode target_size is_decimal (section_text sec)) as Hall.
    rewrite Forall_forall in Hall. apply Hall.
    destruct Hrun as (l1 & l2 & -> & _).
    apply in_or_app. right. now left.
  - split.
    + intros Hnil. unfold Chunker.create_chunks in Hnil.
      rewrite Hnil in Hcount. simpl in Hcount.
      rewrite Forall_forall. intros sec Hsec.
      destruct (blank (section_text sec)) eqn:Hb; [reflexivity|]. exfalso.
      assert (Hin : In sec (filter (fun sec => negb (blank (section_text sec))) secs)).
      { apply filter_In. split; [exact Hsec|]. now rewrite Hb. }
      destruct (filter (fun sec => negb (blank (section_text sec))) secs);
        [destruct Hin | simpl in Hcount; lia].
    + intros Hall. unfold Chunker.create_chunks. now rewrite Hblank.
  - intros Hall. unfold Chunker.create_chunks.
    replace (filter (fun sec => negb (blank (section_text sec))) secs) with secs
      in Hcount; [exact Hcount|].
    clear Hcount Hblank. induction Hall as [|sec secs Hb Hall IH]; [reflexivity|].
    simpl. rewrite Hb. simpl. now f_equal.
Qed.

End Chunks.

End ChunkListFacts.

(* ===================================================================== *)
(** ** Sizes, independence of sections, identifiers *)
(* ===================================================================== *)

Module ChunkBoundFacts.
Import PyStr Chunker Props Document.

Section Bounds.

Variable encode : str -> list N.
Variables target_size overlap : Z.
Variable is_decimal : char -> bool.

Local Abbreviation count_tokens := (Chunker.count_tokens encode).
Local Abbreviation make_chunk := (Chunker.make_chunk encode).
Local Abbreviation pack_step := (Chunker.pack_step encode target_size overlap).
Local Abbreviation pack_loop := (Chunker.pack_loop encode target_size overlap).
Local Abbreviation flush := (Chunker.flush encode).
Local Abbreviation pack_clauses := (Chunker.pack_clauses encode target_size overlap).
Local Abbreviation chunk_section :=
  (Chunker.chunk_section encode target_size overlap is_decimal).
Local Abbreviation create_chunks :=
  (Chunker.create_chunks encode target_size overlap is_decimal).
Local Abbreviation clause_tokens := (Document.clause_tokens encode).

Lemma clause_tokens_snoc (buf : list str) (c : str) :
  clause_tokens (buf ++ [c]) = (clause_tokens buf + count_tokens c)%Z.
Proof.
  induction buf as [|x buf IH]; simpl; [lia|]. rewrite IH. lia.
Qed.

Local Abbreviation identify_clauses :=
  (Chunker.identify_clauses encode target_size is_decimal).
Local Abbreviation chunks_of := (Props.chunks_of encode).
Local Abbreviation within := (Document.within encode target_size).
Local Abbreviation bounded := (Document.bounded encode target_size).
Local Abbreviation packs := (Document.packs encode target_size is_decimal).

Lemma bounded_step (cs0 : list Chunk) (n0 : nat) (name : str)
  (done : list str) (st : pack_state) (c : str) :
  (overlap <= 0)%Z ->
  bounded cs0 n0 name done st ->
  bounded cs0 n0 name (done ++ [c]) (pack_step name st (Z.of_nat (len done)) c).
Proof.
  intros Hov (segs & pre & Hch & Hcnt & Hdone & Hsegs & Htok & Hb).
  assert (Hkeep : Forall (fun sg => snd sg <> [] /\
                                    run_at (done ++ [c]) (fst sg) (snd sg) /\
                                    within sg) segs).
  { eapply Forall_impl; [|exact Hsegs]. intros sg (Hne & Hrun & Hw).
    split; [exact Hne|]. split; [|exact Hw].
    now apply PackingFacts.run_at_app. }
  destruct (@PackingFacts.pack_step_cases encode target_size overlap name st
              (Z.of_nat (len done)) c) as [[Hk Heq] | [Hgt Hne]].
  - rewrite Heq. exists segs, pre.
    cbn [chunks counter current_chunk current_tokens].
    split; [exact Hch|]. split; [exact Hcnt|].
    split; [rewrite Hdone at 1; now rewrite app_assoc|].
    split; [exact Hkeep|].
    rewrite clause_tokens_snoc, <- Htok. split; [reflexivity|].
    destruct Hk as [Hle | Hnil]; [now left|]. right. rewrite Hnil. simpl. lia.
  - rewrite (@PackingFacts.pack_step_close encode target_size overlap name st
               (Z.of_nat (len done)) c) by assumption.
    replace (overlap >? 0)%Z with false
      by (symmetry; rewrite Z.gtb_ltb; apply Z.ltb_ge; lia).
    assert (Hlen : len done = len pre + len (current_chunk st))
      by (rewrite Hdone at 1; apply length_app).
    exists (segs ++ [(len pre, current_chunk st)]), done.
    cbn [chunks counter current_chunk current_tokens].
    split; [|split; [|split; [|split; [|split]]]].
    + rewrite Hch, PackingFacts.chunks_of_app, <- app_assoc. cbn [Props.chunks_of].
      do 3 f_equal. apply PackingFacts.make_chunk_ext;
        unfold seg_range; cbn [fst snd]; lia.
    + rewrite Hcnt, length_app. simpl. lia.
    + reflexivity.
    + apply Forall_app. split; [exact Hkeep|].
      constructor; [|constructor]. cbn [fst snd].
      split; [exact Hne|]. split.
      * exists pre, [c]. split; [|reflexivity].
        rewrite Hdone at 1. now rewrite <- app_assoc.
      * unfold Document.within. cbn [snd].
        destruct Hb as [Hle | Hone]; [now left|]. right.
        destruct (current_chunk st) as [|x [|y l]];
          [congruence | reflexivity | simpl in Hone; lia].
    + cbn [join Document.clause_tokens fold_right]. lia.
    + right. simpl. lia.
Qed.

Lemma bounded_loop (cs0 : list Chunk) (n0 : nat) (name : str)
  (todo : list str) :
  forall (done : list str) (st : pack_state),
  (overlap <= 0)%Z ->
  bounded cs0 n0 name done st ->
  bounded cs0 n0 name (done ++ todo)
          (pack_loop name st (Z.of_nat (len done)) todo).
Proof.
  induction todo as [|c todo IH]; intros done st Hov Hb; simpl.
  - now rewrite app_nil_r.
  - replace (done ++ c :: todo) with ((done ++ [c]) ++ todo)
      by (now rewrite <- app_assoc).
    replace (Z.of_nat (len done) + 1)%Z with (Z.of_nat (len (done ++ [c])))
      by (rewrite length_app; simpl; lia).
    apply IH; [exact Hov|]. now apply bounded_step.
Qed.

(** Without overlap, the chunks one section adds are those of segments
    of its clause list, each a non-empty run within the bound. *)
Lemma bounded_section (acc : list Chunk * nat) (sec : SectionData) :
  (overlap <= 0)%Z ->
  exists segs : list segment,
    chunk_section acc sec =
    (fst acc ++ chunks_of (snd acc) (section_name sec) segs,
     snd acc + len segs) /\
    Forall (fun sg => snd sg <> [] /\
                      run_at (identify_clauses (section_text sec))
                             (fst sg) (snd sg) /\
                      within sg) segs.
Proof.
  intros Hov. unfold Chunker.chunk_section, Chunker.pack_clauses.
  remember (identify_clauses (section_text sec)) as clauses eqn:Hcl. clear Hcl.
  assert (Hinit : bounded (fst acc) (snd acc) (section_name sec) []
                    {| chunks := fst acc; counter := snd acc;
                       current_chunk := []; current_tokens := 0 |}).
  { exists [], []. cbn [chunks counter current_chunk current_tokens
                        Props.chunks_of Datatypes.length app].
    rewrite app_nil_r, Nat.add_0_r.
    split; [reflexivity|]. split; [reflexivity|]. split; [reflexivity|].
    split; [constructor|]. split; [reflexivity|]. right. simpl. lia. }
  apply (bounded_loop clauses) in Hinit; [|exact Hov].
  simpl app in Hinit. simpl (Z.of_nat (len [])) in Hinit.
  unfold Chunker.flush.
  match goal with
  | |- context [nonempty (current_chunk ?st0)] =>
      remember st0 as st eqn:Hst in *; clear Hst
  end.
  destruct Hinit as (segs & pre & Hch & Hcnt & Hdone & Hsegs & _ & Hb).
  destruct (current_chunk st) as [|x l] eqn:Ecur; cbn [nonempty].
  - exists segs. split; [now rewrite Hch, Hcnt|]. exact Hsegs.
  - assert (Hlen : len clauses = len pre + len (x :: l))
      by (rewrite Hdone at 1; apply length_app).
    cbn [Datatypes.length] in Hlen.
    exists (segs ++ [(len pre, x :: l)]). split.
    + rewrite Hch, Hcnt, PackingFacts.chunks_of_app, <- app_assoc, length_app.
      cbn [Props.chunks_of Datatypes.length]. f_equal; [|lia].
      do 3 f_equal. apply PackingFacts.make_chunk_ext;
        unfold seg_range; cbn [fst snd Datatypes.length]; lia.
    + apply Forall_app. split; [exact Hsegs|].
      constructor; [|constructor]. cbn [fst snd].
      split; [discriminate|]. split.
      * exists pre, []. split; [|reflexivity]. now rewrite app_nil_r.
      * unfold Document.within. cbn [snd].
        destruct Hb as [Hle | Hone]; [now left|]. right.
        destruct l; [reflexivity | simpl in Hone; lia].
Qed.

Lemma chunks_of_packs (n : nat) (sec : SectionData) (segs : list segment)
  (c : Chunk) :
  Forall (fun sg => snd sg <> [] /\
                    run_at (identify_clauses (section_text sec))
                           (fst sg) (snd sg) /\
                    within sg) segs ->
  In c (chunks_of n (section_name sec) segs) ->
  exists sg, packs sec sg c /\ within sg.
Proof.
  revert n. induction segs as [|sg segs IH]; intros n Hall; cbn [Props.chunks_of].
  - intros [].
  - inversion Hall as [|? ? (Hne & Hrun & Hw) Hrest]; subst.
    intros [<- | Hin]; [|now apply (IH (S n))].
    exists sg. split; [|exact Hw].
    unfold Document.packs. cbn [Chunker.make_chunk section text token_count clause_index].
    split; [exact Hne|]. split; [exact Hrun|].
    split; [reflexivity|]. split; [reflexivity|]. split; reflexivity.
Qed.

(** X7.  Without overlap the target is exceeded only by a chunk of a
    single clause.  Every chunk packs a segment of the clauses of one of
    the sections, the run of clauses its [clause_index] names, and the
    token counts of the clauses of that segment, which the packing loop
    adds up, come to at most [target_size], unless the segment holds one
    clause only. *)
Theorem soft_bound_without_overlap (secs : list SectionData) (c : Chunk) :
  (overlap <= 0)%Z ->
  In c (create_chunks secs) ->
  exists (sec : SectionData) (sg : segment),
    In sec secs /\
    packs sec sg c /\
    ((clause_tokens (snd sg) <= target_size)%Z \/ len (snd sg) = 1).
Proof.
  intros Hov. unfold Chunker.create_chunks.
  assert (Hgen : forall acc,
             In c (fst (fold_left chunk_section secs acc)) ->
             In c (fst acc) \/
             exists sec sg, In sec secs /\ packs sec sg c /\ within sg).
  { induction secs as [|sec secs' IH]; intros acc Hin; cbn [fold_left] in Hin;
      [now left|].
    destruct (bounded_section acc sec Hov) as (segs & Heq & Hsegs).
    apply IH in Hin. destruct Hin as [Hin | (sec' & sg & Hsec & Hp & Hw)].
    - rewrite Heq in Hin. cbn [fst] in Hin. apply in_app_or in Hin.
      destruct Hin as [Hin | Hin]; [now left|]. right.
      destruct (@chunks_of_packs _ _ _ _ Hsegs Hin) as (sg & Hp & Hw).
      exists sec, sg. split; [now left|]. split; assumption.
    - right. exists sec', sg. split; [now right|]. split; assumption. }
  intros Hin. apply Hgen in Hin. destruct Hin as [[] | H]. exact H.
Qed.


Lemma alike_step (name : str) (st1 st2 : pack_state) (old1 old2 : list Chunk)
  (i : Z) (c : str) :
  alike st1 st2 old1 old2 ->
  alike (pack_step name st1 i c) (pack_step name st2 i c) old1 old2.
Proof.
  intros (Hb & Ht & new1 & new2 & H1 & H2 & Hbody).
  unfold Chunker.pack_step. rewrite Hb, Ht.
  destruct ((current_tokens st2 + count_tokens c >? target_size)%Z
            && nonempty (current_chunk st2))%bool.
  - destruct ((overlap >? 0)%Z && (0 <? len (current_chunk st2)))%bool;
      (split; [reflexivity|]; split; [reflexivity|];
       eexists (new1 ++ [_]), (new2 ++ [_]); cbn [chunks];
       rewrite H1, H2, <- !app_assoc;
       split; [reflexivity|]; split; [reflexivity|];
       rewrite !map_app, Hbody; reflexivity).
  - split; [reflexivity|]. split; [reflexivity|].
    exists new1, new2. cbn [chunks]. auto.
Qed.

Lemma alike_loop (name : str) (clauses : list str) :
  forall (st1 st2 : pack_state) (old1 old2 : list Chunk) (i : Z),
  alike st1 st2 old1 old2 ->
  alike (pack_loop name st1 i clauses) (pack_loop name st2 i clauses) old1 old2.
Proof.
  induction clauses as [|c cl IH]; intros st1 st2 old1 old2 i H; simpl;
    [exact H|].
  apply IH. now apply alike_step.
Qed.

Lemma section_bodies (acc : list Chunk * nat) (sec : SectionData) :
  map body (fst (chunk_section acc sec)) =
  map body (fst acc) ++ map body (fst (chunk_section ([], 0) sec)).
Proof.
  unfold Chunker.chunk_section, Chunker.pack_clauses. cbn [fst snd].
  set (name := section_name sec).
  set (cl := Chunker.identify_clauses encode target_size is_decimal
                                      (section_text sec)).
  set (st1 := {| chunks := fst acc; counter := snd acc;
                 current_chunk := []; current_tokens := 0 |}).
  set (st2 := {| chunks := []; counter := 0;
                 current_chunk := []; current_tokens := 0 |}).
  assert (Hal : alike (pack_loop name st1 0 cl) (pack_loop name st2 0 cl)
                      (fst acc) []).
  { apply alike_loop. split; [reflexivity|]. split; [reflexivity|].
    exists [], []. cbn [chunks st1 st2]. rewrite app_nil_r. auto. }
  destruct Hal as (Hb & _ & new1 & new2 & H1 & H2 & Hbody).
  unfold Chunker.flush. rewrite Hb.
  destruct (nonempty (current_chunk (pack_loop name st2 0 cl)));
    cbn [fst]; rewrite H1, H2; cbn [app];
    rewrite ?map_app, Hbody; cbn [map]; rewrite <- ?app_assoc; reflexivity.
Qed.

(** X8.  Sections are chunked independently of each other: apart from
    the identifiers, the chunks of a list of sections are those of each
    section chunked alone, in order; so chunking two lists one after
    the other gives, identifiers apart, the chunks of the first followed
    by the chunks of the second. *)
Theorem sections_chunked_independently (secs1 secs2 : list SectionData) :
  map body (create_chunks secs1) =
  flat_map (fun sec => map body (create_chunks [sec])) secs1 /\
  map body (create_chunks (secs1 ++ secs2)) =
  map body (create_chunks secs1) ++ map body (create_chunks secs2).
Proof.
  assert (Hgen : forall secs acc,
    map body (fst (fold_left chunk_section secs acc)) =
    map body (fst acc) ++ flat_map (fun sec => map body (create_chunks [sec])) secs).
  { induction secs as [|sec secs IH]; intros acc; simpl.
    - now rewrite app_nil_r.
    - rewrite IH, section_bodies, <- app_assoc. reflexivity. }
  assert (Hall : forall secs,
    map body (create_chunks secs) =
    flat_map (fun sec => map body (create_chunks [sec])) secs).
  { intros secs. unfold Chunker.create_chunks at 1. now rewrite Hgen. }
  split; [apply Hall|].
  rewrite !Hall. apply flat_map_app.
Qed.

Lemma NoDup_map_injective {A B : Type} (f : A -> B) (l : list A) :
  (forall a b, f a = f b -> a = b) -> NoDup l -> NoDup (map f l).
Proof.
  intros Hinj. induction 1 as [|x l Hx Hl IH]; simpl; constructor; auto.
  intros Hin. apply in_map_iff in Hin. destruct Hin as (y & Hy & Hin).
  apply Hinj in Hy. now subst.
Qed.

Lemma id_of_injective (a b : nat) : id_of a = id_of b -> a = b.
Proof.
  unfold id_of. intros H. apply app_inv_head in H.
  apply (f_equal int_of_digits) in H.
  now rewrite !StrFacts.int_of_digits_format in H.
Qed.

(** X9.  No two chunks of a run share an identifier. *)
Theorem chunk_ids_unique (secs : list SectionData) :
  NoDup (map chunk_id (create_chunks secs)) /\
  NoDup (map chunk_id (filter_premium_tables (create_chunks secs))).
Proof.
  assert (H : NoDup (map chunk_id (create_chunks secs))).
  { unfold Chunker.create_chunks.
    destruct (@ChunkerTheorems.fold_sections encode target_size overlap
                is_decimal secs ([], 0)) as (new & -> & _ & Hids).
    cbn [fst app]. rewrite Hids.
    apply NoDup_map_injective; [|apply seq_NoDup].
    intros a b. apply id_of_injective. }
  split; [exact H|].
  unfold filter_premium_tables. rewrite map_map. exact H.
Qed.

End Bounds.

End ChunkBoundFacts.

(* ===================================================================== *)
(** ** The embedding run *)
(* ===================================================================== *)

Module EmbedRunFacts.
Import PyStr Props Document.
Import EmbedGenerator.

Section Run.

Variable F : Type.
Variable provider : Type.
Variable embed_content : provider -> str -> option (list F) * provider.

Local Abbreviation embed_step := (EmbedGenerator.embed_step embed_content).
Local Abbreviation generate_all_embeddings :=
  (EmbedGenerator.generate_all_embeddings embed_content).
Local Abbreviation responses := (EmbedGenerator.responses embed_content).
Local Abbreviation generate := (EmbedRun.generate embed_content).

Lemma fold_skip_filter (skip : bool) (cs : list Chunker.Chunk) :
  forall acc : list (EmbeddingRecord F) * provider,
  fold_left (embed_step skip) cs acc =
  fold_left (embed_step false)
            (filter (fun c => negb (skip && get_premium c)) cs) acc.
Proof.
  induction cs as [|c cs IH]; intros acc; [reflexivity|].
  cbn [fold_left filter].
  destruct (skip && get_premium c)%bool eqn:E; cbn [negb].
  - unfold EmbedGenerator.embed_step at 2. rewrite E. apply IH.
  - cbn [fold_left]. rewrite IH. f_equal.
    unfold EmbedGenerator.embed_step. rewrite E. reflexivity.
Qed.

(** X10.  Skipping the premium-table chunks is the same as taking them
    out of the list beforehand: the records and the state the provider
    is left in are those of a run without skipping on the remaining
    chunks, so no call is made for a skipped chunk. *)
Theorem skipping_is_filtering
  (skip : bool) (p : provider) (cs : list Chunker.Chunk) :
  generate_all_embeddings skip p cs =
  generate_all_embeddings false p
    (filter (fun c => negb (skip && get_premium c)) cs).
Proof. apply fold_skip_filter. Qed.

(** The records of a run, from the answers to the chunks not skipped. *)
Lemma run_records (skip : bool) (p : provider) (cs : list Chunker.Chunk) :
  fst (generate_all_embeddings skip p cs) =
  records_of (filter (fun c => negb (skip && get_premium c)) cs)
             (responses p (map Chunker.text
                (filter (fun c => negb (skip && get_premium c)) cs))).
Proof.
  unfold EmbedGenerator.generate_all_embeddings. rewrite fold_skip_filter.
  rewrite (@EmbedFacts.fold_embed_records F provider embed_content false);
    [reflexivity | reflexivity].
Qed.

Lemma subseq_refl {A : Type} (l : list A) : subseq l l.
Proof. induction l; [apply subseq_nil | apply subseq_keep; assumption]. Qed.

Lemma subseq_trans {A : Type} (a b c : list A) :
  subseq a b -> subseq b c -> subseq a c.
Proof.
  intros Hab Hbc. revert a Hab.
  induction Hbc as [|x b c Hbc IH | x b c Hbc IH]; intros a Hab.
  - exact Hab.
  - apply subseq_skip. now apply IH.
  - inversion Hab; subst; [apply subseq_skip | apply subseq_keep]; now apply IH.
Qed.

Lemma subseq_filter_map {A B : Type} (f : A -> B) (g : A -> bool) (l : list A) :
  subseq (map f (filter g l)) (map f l).
Proof.
  induction l as [|x l IH]; simpl; [apply subseq_nil|].
  destruct (g x); simpl; [apply subseq_keep | apply subseq_skip]; exact IH.
Qed.

Lemma subseq_length {A : Type} (a b : list A) : subseq a b -> len a <= len b.
Proof. induction 1; simpl; lia. Qed.

Lemma records_of_subseq (cs : list Chunker.Chunk) :
  forall rs : list (option (list F)),
  subseq (map (@chunk_id F) (records_of cs rs)) (map Chunker.chunk_id cs).
Proof.
  induction cs as [|c cs IH]; intros rs; [apply subseq_nil|].
  destruct rs as [|[[|x v]|] rs]; simpl.
  - apply subseq_skip. clear IH.
    induction cs; [apply subseq_nil | apply subseq_skip; assumption].
  - apply subseq_skip. apply IH.
  - apply subseq_keep. apply IH.
  - apply subseq_skip. apply IH.
Qed.

(** X11.  The records follow the chunks: their identifiers are those of
    the chunks with some left out, in the same order, so there is at most
    one record per chunk; and when premium tables are skipped no record
    is a premium table, every priority being [high]. *)
Theorem records_follow_chunks
  (skip : bool) (p : provider) (cs : list Chunker.Chunk) :
  subseq (map (@chunk_id F) (fst (generate_all_embeddings skip p cs)))
         (map Chunker.chunk_id cs) /\
  len (fst (generate_all_embeddings skip p cs)) <= len cs /\
  (skip = true ->
   Forall (fun r => is_premium_table r = false /\ priority r = lit "high")
          (fst (generate_all_embeddings skip p cs))).
Proof.
  assert (Hsub : subseq (map (@chunk_id F) (fst (generate_all_embeddings skip p cs)))
                        (map Chunker.chunk_id cs)).
  { rewrite run_records.
    eapply subseq_trans; [apply records_of_subseq | apply subseq_filter_map]. }
  split; [exact Hsub|]. split.
  - apply subseq_length in Hsub. now rewrite !length_map in Hsub.
  - intros ->. unfold EmbedGenerator.generate_all_embeddings; rewrite fold_skip_filter.
    eapply Forall_impl;
      [|apply (@EmbedFacts.fold_embed_sound F provider embed_content false);
        constructor].
    intros r (c & x & v & Hin & ->). apply filter_In in Hin.
    destruct Hin as [_ Hc]. simpl in Hc.
    destruct (get_premium c) eqn:Eg; [discriminate|].
    unfold make_record. cbn [is_premium_table priority]. rewrite Eg. auto.
Qed.

Lemma records_of_nil (cs : list Chunker.Chunk) :
  forall rs : list (option (list F)),
  len rs = len cs ->
  (records_of cs rs = [] <-> Forall (fun r => r = None \/ r = Some []) rs).
Proof.
  induction cs as [|c cs IH]; intros rs Hlen.
  - destruct rs; [|discriminate]. split; [constructor | reflexivity].
  - destruct rs as [|r rs]; [discriminate|]. simpl in Hlen.
    assert (Hl : len rs = len cs) by lia. specialize (IH rs Hl).
    destruct r as [[|x v]|]; simpl.
    + rewrite IH. split; [intros H; constructor; auto | intros H; now inversion H].
    + split; [discriminate|]. intros H. inversion H as [|? ? [Hn | Hn] _]; discriminate.
    + rewrite IH. split; [intros H; constructor; auto | intros H; now inversion H].
Qed.

(** X12.  A run on an existing chunk list writes both artifacts and then
    raises [IndexError] exactly when no record results, that is when
    every chunk that is not skipped gets no vector or an empty one; in
    particular when every chunk is skipped, the provider then being left
    untouched.  Without the chunk list it raises [FileNotFoundError] and
    writes nothing. *)
Theorem generate_raises_without_records
  (skip : bool) (p : provider) (cs : list Chunker.Chunk) :
  generate skip None p = (EmbedRun.no_files F, inl EmbedRun.FileNotFoundError, p) /\
  (snd (fst (generate skip (Some cs) p)) = inl EmbedRun.IndexError <->
   Forall (fun r => r = None \/ r = Some [])
          (responses p (map Chunker.text
             (filter (fun c => negb (skip && get_premium c)) cs)))) /\
  (snd (fst (generate skip (Some cs) p)) = inl EmbedRun.IndexError \/
   snd (fst (generate skip (Some cs) p)) = inr tt) /\
  EmbedRun.embeddings_json (fst (fst (generate skip (Some cs) p))) =
  Some (fst (generate_all_embeddings skip p cs)) /\
  ((forall c, In c cs -> skip && get_premium c = true) ->
   generate skip (Some cs) p =
   ({| EmbedRun.embeddings_json := Some [];
       EmbedRun.metadata_json := Some [] |},
    inl EmbedRun.IndexError, p)).
Proof.
  split; [reflexivity|].
  unfold EmbedRun.generate, EmbedRun.save_embeddings. cbn [fst snd].
  split; [|split; [|split; [reflexivity|]]].
  - rewrite <- records_of_nil
      by (now rewrite EmbedFacts.responses_length, length_map).
    rewrite <- run_records.
    destruct (fst (generate_all_embeddings skip p cs)); split;
      congruence || discriminate.
  - destruct (fst (generate_all_embeddings skip p cs)); auto.
  - intros Hall. unfold EmbedGenerator.generate_all_embeddings; rewrite fold_skip_filter.
    replace (filter (fun c => negb (skip && get_premium c)) cs) with (@nil Chunker.Chunk).
    + reflexivity.
    + symmetry. clear -Hall. induction cs as [|c cs IH]; [reflexivity|].
      simpl. rewrite (Hall c) by now left. simpl.
      apply IH. intros c' Hc'. apply Hall. now right.
Qed.

(** X14.  [main] never ends with the [ValueError] of the constructor:
    without a key, or with an empty one, it returns normally, writes
    nothing and calls no provider; with a key it is the run itself, with
    premium tables skipped. *)
Theorem main_guards_constructor
  (api_key : option str) (input : option (list Chunker.Chunk)) (p : provider) :
  snd (fst (EmbedRun.main embed_content api_key input p))
  <> inl EmbedRun.ValueError /\
  (EmbedRun.key_present api_key = false ->
   EmbedRun.main embed_content api_key input p
   = (EmbedRun.no_files F, inr tt, p)) /\
  (EmbedRun.key_present api_key = true ->
   EmbedRun.main embed_content api_key input p = generate true input p).
Proof.
  unfold EmbedRun.main, EmbedRun.init.
  destruct (EmbedRun.key_present api_key); cbn [negb].
  - split; [|split; [discriminate | reflexivity]].
    unfold EmbedRun.generate, EmbedRun.save_embeddings.
    destruct input as [cs|]; cbn [fst snd]; [|discriminate].
    destruct (fst (generate_all_embeddings true p cs)); discriminate.
  - split; [discriminate|]. split; [reflexivity | discriminate].
Qed.

End Run.

End EmbedRunFacts.

(* ===================================================================== *)
(** ** The orchestrator *)
(* ===================================================================== *)

Module PipelineFacts.
Import PyStr RunPhase1.

Section Pipeline.

Variable world : Type.
Variable run : world -> str -> bool * world.

Local Abbreviation run_steps := (RunPhase1.run_steps run).
Local Abbreviation after := (RunPhase1.after run).
Local Abbreviation outcomes := (RunPhase1.outcomes run).
Local Abbreviation main := (RunPhase1.main run).

Lemma first_failure_none (bs : list bool) :
  first_failure bs = None <-> forallb (fun b => b) bs = true.
Proof.
  induction bs as [|[|] bs IH]; simpl; [tauto | | split; discriminate].
  rewrite <- IH. destruct (first_failure bs); simpl; split; congruence.
Qed.

Lemma run_steps_first_failure (l : list (str * str)) :
  forall w : world,
  match first_failure (outcomes w l) with
  | None => run_steps w l = (0, after w l)
  | Some k => run_steps w l = (1, after w (firstn (S k) l)) /\ k < len l
  end.
Proof.
  induction l as [|[command description] l IH]; intros w; [reflexivity|].
  cbn [RunPhase1.outcomes RunPhase1.run_steps RunPhase1.after first_failure firstn].
  unfold run_command. destruct (run w command) as [[|] w'] eqn:E; cbn [fst snd].
  - specialize (IH w'). destruct (first_failure (outcomes w' l)) as [k|];
      cbn [option_map].
    + destruct IH as [IH Hk]. split; [exact IH | simpl; lia].
    + exact IH.
  - split; [reflexivity | simpl; lia].
Qed.

(** X15.  The loop over the stages stops at the first stage that fails:
    it exits with status 1 and the stages after the failing one are not
    run; it ends with status 0, every stage run, exactly when every
    stage succeeds. *)
Theorem pipeline_stops_at_first_failure (l : list (str * str)) (w : world) :
  match first_failure (outcomes w l) with
  | None => run_steps w l = (0, after w l)
  | Some k => run_steps w l = (1, after w (firstn (S k) l)) /\ k < len l
  end /\
  (fst (run_steps w l) = 0 <-> forallb (fun b => b) (outcomes w l) = true).
Proof.
  pose proof (run_steps_first_failure l w) as H.
  split; [exact H|].
  rewrite <- first_failure_none.
  destruct (first_failure (outcomes w l)) as [k|].
  - destruct H as [-> _]. simpl. split; discriminate.
  - rewrite H. simpl. tauto.
Qed.

(** X16.  [main] exits with status 0 exactly when the three
    prerequisites are there and the four stages succeed one after the
    other; when a prerequisite is missing it exits with status 1 and
    runs no stage. *)
Theorem main_exit_status (pre : prerequisites) (w : world) :
  check_prerequisites pre =
  pdf_exists pre && env_exists pre && requirements_exist pre /\
  (check_prerequisites pre = false -> main pre w = (1, w)) /\
  (fst (main pre w) = 0 <->
   pdf_exists pre = true /\ env_exists pre = true /\
   requirements_exist pre = true /\
   forallb (fun b => b) (outcomes w steps) = true) /\
  (fst (main pre w) = 0 \/ fst (main pre w) = 1).
Proof.
  assert (Hc : check_prerequisites pre =
               pdf_exists pre && env_exists pre && requirements_exist pre).
  { unfold check_prerequisites.
    destruct (pdf_exists pre), (env_exists pre), (requirements_exist pre);
      reflexivity. }
  pose proof (run_steps_first_failure steps w) as H.
  pose proof (first_failure_none (outcomes w steps)) as Hn.
  split; [exact Hc|]. unfold RunPhase1.main.
  destruct (check_prerequisites pre) eqn:E; cbn [negb].
  - symmetry in Hc. apply andb_true_iff in Hc. destruct Hc as [Hc H3].
    apply andb_true_iff in Hc. destruct Hc as [H1 H2].
    split; [discriminate|].
    destruct (first_failure (outcomes w steps)) as [k|].
    + destruct H as [-> _]. cbn [fst]. split; [|now right].
      split; [discriminate|]. intros (_ & _ & _ & Hall).
      apply Hn in Hall. discriminate.
    + rewrite H. cbn [fst]. split; [|now left].
      split; [|reflexivity]. intros _. repeat split; auto. now apply Hn.
  - split; [reflexivity|]. cbn [fst]. split; [|now right].
    split; [discriminate|]. intros (H1 & H2 & H3 & _).
    rewrite H1, H2, H3 in Hc. discriminate.
Qed.

End Pipeline.

End PipelineFacts.

(* ===================================================================== *)
(** ** The further properties on sample inputs *)
(* ===================================================================== *)

Module OnMoreSamples.
Import PyStr Chunker Props Document Samples MoreSamples.

Example policy_document_text :
  document policy_preamble policy_parts =
  line "Policy wording" ++ line "" ++
  line "### SECTION: KEY POINTS ###" ++ line "Key Points To Note:" ++ line "" ++
  line "### SECTION: EXCLUSIONS ###" ++ line "### TOPIC: EXCLUSIONS ###" ++
  lit "What We Will Not Pay " ++
  line "### SECTION: FAQs ###" ++ lit "  ".
Proof. vm_compute. reflexivity. Qed.

Lemma policy_is_well_formed :
  plain policy_preamble /\
  Forall (fun nb => good_name (fst nb) /\ plain (snd nb)) policy_parts.
Proof.
  split; [vm_compute; reflexivity|].
  repeat constructor; try discriminate; try (vm_compute; reflexivity);
    intros H; simpl in H;
    repeat (destruct H as [H | H]; [discriminate|]); exact H.
Qed.

Lemma split_into_sections_document_witness :
  split_into_sections (document policy_preamble policy_parts) =
  inr [ {| section_name := lit "Introduction";
           section_text := lit "Policy wording" |};
        {| section_name := lit "KEY POINTS";
           section_text := lit "Key Points To Note:" |};
        {| section_name := lit "EXCLUSIONS";
           section_text :=
             line "### TOPIC: EXCLUSIONS ###" ++ lit "What We Will Not Pay" |} ].
Proof.
  exact (@DocumentFacts.split_into_sections_document
           policy_preamble policy_parts
           (proj1 policy_is_well_formed) (proj2 policy_is_well_formed)).
Defined.

Lemma marker_name_round_trip_witness :
  search_section_name (lit "### SECTION: KEY POINTS ###" ++ lit " and more")
  = Some (lit "KEY POINTS").
Proof.
  assert (H : good_name (lit "KEY POINTS")).
  { repeat split; try discriminate;
      intros H; simpl in H;
      repeat (destruct H as [H | H]; [discriminate|]); exact H. }
  exact (proj2 (proj2 (@DocumentFacts.marker_name_round_trip
                         (lit "KEY POINTS") (lit " and more") H))).
Defined.

Lemma sections_are_stripped_witness :
  Forall (fun sec =>
            section_name sec <> [] /\ ~ In NL (section_name sec) /\
            blank (section_text sec) = false /\
            strip (section_text sec) = section_text sec /\
            lstrip (section_text sec) = section_text sec /\
            lstrip (rev (section_text sec)) = rev (section_text sec))
         [ {| section_name := lit "Introduction"; section_text := lit "Intro" |};
           {| section_name := lit "KEY POINTS";
              section_text := lit "Key Points" |} ].
Proof.
  assert (H : split_into_sections two_sections =
              inr [ {| section_name := lit "Introduction";
                       section_text := lit "Intro" |};
                    {| section_name := lit "KEY POINTS";
                       section_text := lit "Key Points" |} ])
    by (vm_compute; reflexivity).
  exact (@DocumentFacts.sections_are_stripped two_sections _ H).
Defined.

Lemma soft_bound_without_overlap_witness :
  exists (sec : SectionData) (sg : segment),
    In sec [bullets_ABCD] /\
    packs char_tokens 15 ascii_digit sec sg
          (make_chunk char_tokens 1 (lit "KEY POINTS")
                      [lit "3. cccc"; lit "4. dddd"] 2 3) /\
    ((clause_tokens char_tokens (snd sg) <= 15)%Z \/ len (snd sg) = 1).
Proof.
  apply (@ChunkBoundFacts.soft_bound_without_overlap
           char_tokens 15 0 ascii_digit [bullets_ABCD]
           (make_chunk char_tokens 1 (lit "KEY POINTS")
                       [lit "3. cccc"; lit "4. dddd"] 2 3)).
  - lia.
  - vm_compute. right. left. reflexivity.
Defined.

(** Splits an equation [l = pre ++ buf ++ post], [l] a given list, into
    the cases of its runs. *)
Ltac runs H :=
  match type of H with
  | _ = ?p ++ _ =>
      is_var p; destruct p; cbn [app] in H;
      [ try runs H
      | first [ discriminate H
              | let E := fresh "E" in
                injection H as E H; try subst; try runs H ] ]
  end.

(** The bound needs the hypothesis on the overlap.  With target 10 and
    overlap 100 the second chunk packs the clauses 0 and 1, of seven
    tokens each: no segment it packs is within the bound. *)
Example soft_bound_needs_no_overlap :
  exists c,
    In c (create_chunks char_tokens 10 100 ascii_digit [bullets_ABCD]) /\
    clause_index c = lit "0-1" /\
    ~ exists (sec : SectionData) (sg : segment),
        In sec [bullets_ABCD] /\
        packs char_tokens 10 ascii_digit sec sg c /\
        ((clause_tokens char_tokens (snd sg) <= 10)%Z \/ len (snd sg) = 1).
Proof.
  exists (make_chunk char_tokens 1 (lit "KEY POINTS")
                     [lit "1. aaaa"; lit "2. bbbb"] 0 1).
  split; [vm_compute; right; left; reflexivity|].
  split; [reflexivity|].
  intros (sec & [a buf] & Hin & (Hne & Hrun & _ & Htext & _ & _) & Hw).
  destruct Hin as [<- | []].
  cbn [fst snd] in *.
  replace (identify_clauses char_tokens 10 ascii_digit (section_text bullets_ABCD))
    with [lit "1. aaaa"; lit "2. bbbb"; lit "3. cccc"; lit "4. dddd"] in Hrun
    by (vm_compute; reflexivity).
  destruct Hrun as (pre & post & Heq & _).
  runs Heq.
  all: first [ now apply Hne
             | vm_compute in Htext; discriminate Htext
             | destruct Hw as [Hw | Hw];
               [vm_compute in Hw; now apply Hw | discriminate Hw] ].
Qed.

Example chunks_without_overlap :
  map (fun c => (text c, token_count c))
      (create_chunks char_tokens 15 0 ascii_digit [bullets_ABCD]) =
  [ (lit "1. aaaa" ++ [NL] ++ lit "2. bbbb", 15%Z);
    (lit "3. cccc" ++ [NL] ++ lit "4. dddd", 15%Z) ].
Proof. vm_compute. reflexivity. Qed.

End OnMoreSamples.
